(** * gosocket: the hub, the sessions and the dispatch path of [client.go]

    A shallow embedding of the websocket hub of Dyngela/gosocket.  The Go
    code keeps its state in one [Server] object and in the [Client] objects
    it points to; here that state is one record which every operation takes
    and returns.

    - A [Client] pointer is identified with the client's [ID] (a fresh UUID
      per connection), so [s.clients], a map from ID to pointer always filled
      as [s.clients[c.ID] = c], is the set of its keys, and so is every
      member map of [s.rooms].
    - The server lock [s.mu] is part of the state: a call that asks for a
      lock it cannot get is [Blocked].  The client lock [c.mu] is taken and
      released inside [Emit], [Join] and [leaveRoom] and never held across a
      call, so it is left out.
    - The hub goroutine [Server.run] is given case by case; a send on one of
      its unbuffered channels is followed at once by the matching case.
    - The stream is the list of results the successive [ReadJSON] calls
      return; [encoding/json] is a parameter. *)

From stdpp Require Import base gmap sets list strings pretty.

Open Scope string_scope.
Open Scope list_scope.

#[local] Set Warnings "-clear-no-such-hyp".

(** ** Values, messages and channels *)

(** Go's [interface{}] payloads, as far as this code meets them: the values
    a JSON frame decodes to, and the byte slice the hub hands to the
    [connect] and [disconnect] handlers. *)
Unset Elimination Schemes.
Inductive any : Type :=
| ANil
| ABool (b : bool)
| ANumber (z : Z)
| AString (s : string)
| ABytes (bs : list Z)
| ASlice (vs : list any)
| AMap (kvs : list (string * any)).
Set Elimination Schemes.

(** Errors the code distinguishes: a websocket close error carries its code,
    a JSON error comes from [encoding/json]. *)
Inductive error : Type :=
| CloseError (code : Z)
| JsonError (what : string)
| OtherError (what : string).

Record Message : Type := mkMessage { Event : string; Data : any }.

(** A buffered channel of messages: its buffer, oldest first, and whether
    [close] was called on it. *)
Record chan : Type := mkChan { buf : list Message; closed : bool }.

(** [make(chan Message, 256)] in [handleWebSocket]. *)
Definition send_cap : nat := 256.

Definition make_chan : chan := mkChan [] false.

(** ** Clients and the server *)

Record Client : Type := mkClient {
  send : chan;                 (* c.send *)
  c_rooms : gset string;       (* c.rooms, a map[string]bool only ever set to true *)
  conn_open : bool             (* false once c.conn.Close() ran *)
}.

(** [sync.RWMutex]: the number of read holds and the write hold. *)
Record RWMutex : Type := mkMu { readers : nat; writer : bool }.

Inductive LogEntry : Type :=
| LogConnected (id : string)
| LogDisconnected (id : string)
| LogHandlerError (event : string) (e : error)
| LogWebSocketError (e : error)
| LogReadError (e : error)
| LogUser (line : string).

Record Server : Type := mkServer {
  clients : gset string;                 (* s.clients *)
  rooms : gmap string (gset string);     (* s.rooms *)
  heap : gmap string Client;             (* the Client objects *)
  mu : RWMutex;                          (* s.mu *)
  logs : list LogEntry                   (* what log.Printf wrote, oldest first *)
}.

Definition set_clients (f : gset string → gset string) (s : Server) : Server :=
  mkServer (f (clients s)) (rooms s) (heap s) (mu s) (logs s).
Definition set_rooms (f : gmap string (gset string) → gmap string (gset string))
    (s : Server) : Server :=
  mkServer (clients s) (f (rooms s)) (heap s) (mu s) (logs s).
Definition set_heap (f : gmap string Client → gmap string Client) (s : Server) : Server :=
  mkServer (clients s) (rooms s) (f (heap s)) (mu s) (logs s).
Definition set_mu (m : RWMutex) (s : Server) : Server :=
  mkServer (clients s) (rooms s) (heap s) m (logs s).
Definition log_Printf (e : LogEntry) (s : Server) : Server :=
  mkServer (clients s) (rooms s) (heap s) (mu s) (logs s ++ [e]).

Definition set_send (f : chan → chan) (c : Client) : Client :=
  mkClient (f (send c)) (c_rooms c) (conn_open c).
Definition set_c_rooms (f : gset string → gset string) (c : Client) : Client :=
  mkClient (send c) (f (c_rooms c)) (conn_open c).
Definition close_conn (c : Client) : Client :=
  mkClient (send c) (c_rooms c) false.

(** ** Outcomes

    A call returns, panics, or blocks on a lock nobody will release. *)
Inductive Outcome (A : Type) : Type :=
| Ret (a : A) (s : Server)
| Panic (why : string)
| Blocked.
Arguments Ret {A} a s.
Arguments Panic {A} why.
Arguments Blocked {A}.

Definition M (A : Type) : Type := Server → Outcome A.

Definition ret {A} (a : A) : M A := fun s => Ret a s.

Definition bind {A B} (m : M A) (k : A → M B) : M B :=
  fun s => match m s with
           | Ret a s' => k a s'
           | Panic why => Panic why
           | Blocked => Blocked
           end.

Notation "x <- m ;; k" := (bind m (fun x => k))
  (at level 100, m at next level, right associativity).
Notation "m ;;; k" := (bind m (fun _ => k))
  (at level 100, right associativity).

Definition modify (f : Server → Server) : M unit := fun s => Ret tt (f s).
Definition panic {A} (why : string) : M A := fun _ => Panic why.

(** *** The server lock *)

Definition RLock : M unit := fun s =>
  if writer (mu s) then Blocked
  else Ret tt (set_mu (mkMu (S (readers (mu s))) false) s).

Definition RUnlock : M unit := fun s =>
  match readers (mu s) with
  | O => Panic "sync: RUnlock of unlocked RWMutex"
  | S n => Ret tt (set_mu (mkMu n (writer (mu s))) s)
  end.

Definition Lock : M unit := fun s =>
  if writer (mu s) then Blocked
  else match readers (mu s) with
       | O => Ret tt (set_mu (mkMu 0 true) s)
       | S _ => Blocked
       end.

Definition Unlock : M unit := fun s =>
  if writer (mu s) then Ret tt (set_mu (mkMu (readers (mu s)) false) s)
  else Panic "sync: Unlock of unlocked RWMutex".

(** Dereferencing a client pointer. *)
Definition deref (c : string) : M Client := fun s =>
  match heap s !! c with
  | Some cl => Ret cl s
  | None => Panic "invalid memory address or nil pointer dereference"
  end.

(** ** Client.Emit *)

(** The [select] with a send case and a [default]: a send on a closed channel
    panics, a send with room in the buffer goes through, otherwise the
    default branch closes the channel and drops the client from the
    registry. *)
Definition Emit (c : string) (event : string) (data : any) : M unit :=
  cl <- deref c ;;
  let msg := mkMessage event data in
  if closed (send cl) then panic "send on closed channel"
  else if decide (length (buf (send cl)) < send_cap) then
    modify (set_heap <[c := set_send (fun ch => mkChan (buf ch ++ [msg]) (closed ch)) cl]>)
  else
    modify (set_heap <[c := set_send (fun ch => mkChan (buf ch) true) cl]>) ;;;
    modify (set_clients (fun cs => cs ∖ {[c]})).

(** ** Rooms *)

Definition Join (c : string) (room : string) : M unit :=
  cl <- deref c ;;
  modify (set_heap <[c := set_c_rooms (fun rs => rs ∪ {[room]}) cl]>) ;;;
  modify (set_rooms (fun rms =>
    match rms !! room with
    | None => <[room := ∅]> rms
    | Some _ => rms
    end)) ;;;
  modify (set_rooms (alter (fun members => members ∪ {[c]}) room)).

Definition leaveRoom (c : string) (room : string) : M unit :=
  Lock ;;;
  modify (set_rooms (fun rms =>
    match rms !! room with
    | Some members =>
        let members' := members ∖ {[c]} in
        if decide (size members' = 0) then delete room rms
        else <[room := members']> rms
    | None => rms
    end)) ;;;
  cl <- deref c ;;
  modify (set_heap <[c := set_c_rooms (fun rs => rs ∖ {[room]}) cl]>) ;;;
  Unlock.

Definition Leave (c : string) (room : string) : M unit := leaveRoom c room.

(** Iterating a Go map: the keys present when the loop starts, each once, in
    an order the language does not fix. *)
Fixpoint for_each (keys : list string) (body : string → M unit) : M unit :=
  match keys with
  | [] => ret tt
  | k :: keys' => body k ;;; for_each keys' body
  end.

(** ** Client.BroadcastToRoom and Client.Broadcast *)

Definition BroadcastToRoom (c : string) (room : string) (event : string) (data : any)
    : M unit :=
  deref c ;;;
  RLock ;;;
  (fun s =>
     match rooms s !! room with
     | Some members =>
         for_each (elements members)
           (fun client => if decide (client ≠ c) then Emit client event data else ret tt) s
     | None => ret tt s
     end) ;;;
  RUnlock.

(** The [broadcast] case of [Server.run]: the hub's own copy of the
    non-blocking send, over the whole registry. *)
Definition run_broadcast (message : Message) : M unit :=
  RLock ;;;
  (fun s =>
     for_each (elements (clients s))
       (fun client =>
          cl <- deref client ;;
          if closed (send cl) then panic "send on closed channel"
          else if decide (length (buf (send cl)) < send_cap) then
            modify (set_heap
              <[client := set_send (fun ch => mkChan (buf ch ++ [message]) (closed ch)) cl]>)
          else
            modify (set_heap <[client := set_send (fun ch => mkChan (buf ch) true) cl]>) ;;;
            modify (set_clients (fun cs => cs ∖ {[client]}))) s) ;;;
  RUnlock.

(** [c.server.broadcast <- Message{...}] hands the message to the hub over an
    unbuffered channel; the hub then runs its [broadcast] case on it.  This
    is the call as made on any goroutine but the hub's own (the [readPump]
    of a session running a handler, application code): the hub is there to
    receive. *)
Definition Broadcast (c : string) (event : string) (data : any) : M unit :=
  deref c ;;;
  RLock ;;;
  run_broadcast (mkMessage event data) ;;;
  RUnlock.

(** The goroutine a call is made on.  The hub runs the connect and disconnect
    handlers on its own goroutine; every other handler runs on the
    [readPump] goroutine of its session. *)
Inductive Goroutine : Type := OnSession | OnHub.

Definition blocked {A} : M A := fun _ => Blocked.

(** [Client.Broadcast] by the goroutine it is called on.  On the hub's
    goroutine the send on [s.broadcast] waits for a receiver that can only be
    the waiting goroutine itself: the call takes the read lock and never
    returns. *)
Definition Broadcast_from (g : Goroutine) (c : string) (event : string) (data : any)
    : M unit :=
  match g with
  | OnSession => Broadcast c event data
  | OnHub => deref c ;;; RLock ;;; blocked
  end.

(** ** Handlers, the dispatch table and the middleware chain *)

Inductive result (A : Type) : Type :=
| Ok (a : A)
| Err (e : error).
Arguments Ok {A} a.
Arguments Err {A} e.

(** [encoding/json], an external library: [json.Marshal] on a payload and
    [json.Unmarshal] into a value of type [T]. *)
Class Marshal : Type := json_Marshal : any → result string.
Class Unmarshal (T : Type) : Type := json_Unmarshal : string → result T.

(** A handler function: it takes the client and the decoded payload. *)
Definition HandlerFunc (T : Type) : Type := string → T → M unit.

(** The [EventHandler] interface: its one method, [Handle]. *)
Abbreviation EventHandler := (string → any → M (option error)).

(** A middleware predicate: it takes the client and the message. *)
Definition Middleware : Type := string → Message → M bool.

(** [s.handlers] and [s.middleware], filled by the application before
    traffic flows. *)
Record Dispatch : Type := mkDispatch {
  handlers : gmap string EventHandler;
  middleware : list Middleware
}.

Definition NewDispatch : Dispatch := mkDispatch ∅ [].

Section Handlers.
Context `{!Marshal} `{!Unmarshal any}.

(** The [Handle] method of [TypedHandler[T]]. *)
Definition Handle {T : Type} `{!Unmarshal T} (handler : HandlerFunc T) : EventHandler :=
  fun client data =>
    match json_Marshal data with
    | Err e => ret (Some e)
    | Ok bytes =>
        match json_Unmarshal bytes with
        | Err e => ret (Some e)
        | Ok payload => handler client payload ;;; ret None
        end
    end.

Definition OnTyped {T : Type} `{!Unmarshal T} (d : Dispatch) (event : string)
    (handler : HandlerFunc T) : Dispatch :=
  mkDispatch (<[event := Handle handler]> (handlers d)) (middleware d).

(** [Server.On]: a [TypedHandler[interface{}]] around the given function. *)
Definition On (d : Dispatch) (event : string) (handler : HandlerFunc any) : Dispatch :=
  mkDispatch
    (<[event := Handle (T := any) (fun client data => handler client data)]> (handlers d))
    (middleware d).

Definition Use (d : Dispatch) (mw : Middleware) : Dispatch :=
  mkDispatch (handlers d) (middleware d ++ [mw]).
End Handlers.

(** ** Server.run, one case at a time *)

Definition NewServer : Server := mkServer ∅ ∅ ∅ (mkMu 0 false) [].

(** The [&Client{...}] of [handleWebSocket]. *)
Definition new_client (id : string) : M unit :=
  modify (set_heap <[id := mkClient make_chan ∅ true]>).

Definition close (c : string) : M unit :=
  cl <- deref c ;;
  if closed (send cl) then panic "close of closed channel"
  else modify (set_heap <[c := set_send (fun ch => mkChan (buf ch) true) cl]>).

(** [if handler, exists := s.handlers[name]; exists { handler.Handle(client, []byte{}) }];
    the error [Handle] returns is discarded. *)
Definition fire (d : Dispatch) (name : string) (client : string) : M unit :=
  match handlers d !! name with
  | Some handler => handler client (ABytes []) ;;; ret tt
  | None => ret tt
  end.

Definition run_register (d : Dispatch) (client : string) : M unit :=
  Lock ;;;
  modify (set_clients (fun cs => cs ∪ {[client]})) ;;;
  Unlock ;;;
  modify (log_Printf (LogConnected client)) ;;;
  fire d "connect" client.

Definition run_unregister (d : Dispatch) (client : string) : M unit :=
  Lock ;;;
  (fun s =>
     if decide (client ∈ clients s) then
       (modify (set_clients (fun cs => cs ∖ {[client]})) ;;;
        close client ;;;
        cl <- deref client ;;
        for_each (elements (c_rooms cl)) (fun room => leaveRoom client room)) s
     else ret tt s) ;;;
  Unlock ;;;
  modify (log_Printf (LogDisconnected client)) ;;;
  fire d "disconnect" client.

(** ** Client.readPump *)

(** [websocket.IsUnexpectedCloseError(err, codes...)]: a close error whose
    code is none of the expected ones. *)
Definition IsUnexpectedCloseError (err : error) (expectedCodes : list Z) : bool :=
  match err with
  | CloseError code => negb (bool_decide (code ∈ expectedCodes))
  | _ => false
  end.

Definition CloseGoingAway : Z := 1001.
Definition CloseAbnormalClosure : Z := 1006.

(** The middleware loop: [shouldContinue] after it. *)
Fixpoint run_middleware (mws : list Middleware) (c : string) (msg : Message) : M bool :=
  match mws with
  | [] => ret true
  | mw :: mws' =>
      ok <- mw c msg ;;
      if ok then run_middleware mws' c msg else ret false
  end.

(** How the loop is left: by [break], or not at all, the stream having no
    further frame for [ReadJSON] yet. *)
Inductive PumpExit : Type := Broke | Reading.

(** The end of the loop body: the handler, looked up and run under the read
    lock.  The [continue] after a handler error leaves the loop body before
    [RUnlock]. *)
Definition call_handler (d : Dispatch) (c : string) (msg : Message) : M unit :=
  RLock ;;;
  match handlers d !! Event msg with
  | Some handler =>
      err <- handler c (Data msg) ;;
      match err with
      | Some e => modify (log_Printf (LogHandlerError (Event msg) e))
      | None => RUnlock
      end
  | None => RUnlock
  end.

(** The loop body after a frame was decoded: the middleware loop, then the
    handler unless a predicate said no. *)
Definition dispatch (d : Dispatch) (c : string) (msg : Message) : M unit :=
  shouldContinue <- run_middleware (middleware d) c msg ;;
  if negb shouldContinue then ret tt
  else call_handler d c msg.

(** The [for] loop of [readPump]; [frames] is what the successive calls of
    [c.conn.ReadJSON] return. *)
Fixpoint readPump_loop (d : Dispatch) (c : string) (frames : list (result Message))
    : M PumpExit :=
  match frames with
  | [] => ret Reading
  | Err err :: _ =>
      (if IsUnexpectedCloseError err [CloseGoingAway; CloseAbnormalClosure]
       then modify (log_Printf (LogWebSocketError err))
       else ret tt) ;;;
      ret Broke
  | Ok msg :: frames' =>
      dispatch d c msg ;;;
      readPump_loop d c frames'
  end.

(** The deferred function: [c.server.unregister <- c], which the hub answers
    with its [unregister] case, then [c.conn.Close()]. *)
Definition readPump_deferred (d : Dispatch) (c : string) : M unit :=
  run_unregister d c ;;;
  cl <- deref c ;;
  modify (set_heap <[c := close_conn cl]>).

Definition readPump (d : Dispatch) (c : string) (frames : list (result Message))
    : M PumpExit :=
  exit <- readPump_loop d c frames ;;
  match exit with
  | Broke => readPump_deferred d c ;;; ret Broke
  | Reading => ret Reading
  end.

(** *** The readPump of [test/main.go]

    The second copy of the package kept under [test/] reads differently: a
    close error with code 1001 or 1006 is retried up to sixteen times, any
    other read error is logged and the loop goes on. *)
Fixpoint readPump_loop' (d : Dispatch) (c : string) (reconnectAttempt : nat)
    (frames : list (result Message)) : M PumpExit :=
  match frames with
  | [] => ret Reading
  | Err err :: frames' =>
      match err with
      | CloseError code =>
          if decide (code = 1001 ∨ code = 1006)%Z then
            if decide (15 < reconnectAttempt) then
              run_unregister d c ;;; ret Broke
            else readPump_loop' d c (S reconnectAttempt) frames'
          else
            modify (log_Printf (LogReadError err)) ;;;
            readPump_loop' d c reconnectAttempt frames'
      | _ =>
          modify (log_Printf (LogReadError err)) ;;;
          readPump_loop' d c reconnectAttempt frames'
      end
  | Ok msg :: frames' =>
      dispatch d c msg ;;;
      readPump_loop' d c reconnectAttempt frames'
  end.

Definition readPump' (d : Dispatch) (c : string) (frames : list (result Message))
    : M PumpExit :=
  exit <- readPump_loop' d c 0 frames ;;
  match exit with
  | Broke => readPump_deferred d c ;;; ret Broke
  | Reading => ret Reading
  end.

(** ** Vocabulary of the properties *)

(** The lock held by nobody. *)
Definition unlocked : RWMutex := mkMu 0 false.

(** What the non-blocking send does to a client whose channel is open: the
    message goes to the back of the buffer if there is room, otherwise the
    channel is closed. *)
Definition has_room (cl : Client) : Prop := length (buf (send cl)) < send_cap.

Definition enqueued (msg : Message) (cl : Client) : Client :=
  set_send (fun ch => mkChan (buf ch ++ [msg]) (closed ch)) cl.

Definition shed (cl : Client) : Client :=
  set_send (fun ch => mkChan (buf ch) true) cl.

Definition sent (msg : Message) (cl : Client) : Client :=
  if decide (has_room cl) then enqueued msg cl else shed cl.

(** A client object with an open outbound queue. *)
Definition live (s : Server) (c : string) : Prop :=
  ∃ cl, heap s !! c = Some cl ∧ closed (send cl) = false.

(** Room operations as the application issues them. *)
Inductive RoomOp : Type :=
| OpJoin (c : string) (room : string)
| OpLeave (c : string) (room : string).

Definition op_client (op : RoomOp) : string :=
  match op with OpJoin c _ | OpLeave c _ => c end.

Definition run_op (op : RoomOp) : M unit :=
  match op with
  | OpJoin c room => Join c room
  | OpLeave c room => Leave c room
  end.

Fixpoint run_ops (ops : list RoomOp) : M unit :=
  match ops with
  | [] => ret tt
  | op :: ops' => run_op op ;;; run_ops ops'
  end.

(** The two sides of room membership agree, and no room is empty. *)
Definition is_member (s : Server) (c room : string) : Prop :=
  ∃ members, rooms s !! room = Some members ∧ c ∈ members.

Definition rooms_agree (s : Server) : Prop :=
  (∀ c cl room, heap s !! c = Some cl → (room ∈ c_rooms cl ↔ is_member s c room)) ∧
  (∀ room members, rooms s !! room = Some members → members ≠ ∅).

(** The room index after [leaveRoom] took [c] out of [room]. *)
Definition rooms_without (c room : string) (rms : gmap string (gset string))
    : gmap string (gset string) :=
  match rms !! room with
  | Some members =>
      if decide (size (members ∖ {[c]}) = 0) then delete room rms
      else <[room := members ∖ {[c]}]> rms
  | None => rms
  end.

(** ** States and handlers used in the closed examples *)

Definition ex_msg : Message := mkMessage "ping" (ANumber 1).

(** Two admitted sessions, [a] and [b], in no room, with empty queues. *)
Definition ex_two : Server :=
  mkServer {["a"; "b"]} ∅
    (<["a" := mkClient make_chan ∅ true]> (<["b" := mkClient make_chan ∅ true]> ∅))
    unlocked [LogConnected "a"; LogConnected "b"].

(** [ex_two] after the hub deregistered [b]. *)
Definition ex_b_gone : Server :=
  mkServer {["a"]} ∅
    (<["a" := mkClient make_chan ∅ true]>
       (<["b" := mkClient (mkChan [] true) ∅ true]> ∅))
    unlocked [LogConnected "a"; LogConnected "b"; LogDisconnected "b"].

Definition ex_ops : list RoomOp :=
  [OpJoin "a" "lobby"; OpJoin "b" "lobby"; OpLeave "a" "lobby"; OpJoin "a" "hall";
   OpLeave "b" "lobby"; OpLeave "b" "lobby"].

(** As [ex_two], but the queue of [b] holds 256 messages. *)
Definition ex_b_full : Server :=
  mkServer {["a"; "b"]} ∅
    (<["a" := mkClient make_chan ∅ true]>
       (<["b" := mkClient (mkChan (replicate 256 ex_msg) false) ∅ true]> ∅))
    unlocked [LogConnected "a"; LogConnected "b"].

(** Three admitted sessions. *)
Definition ex_three : Server :=
  mkServer {["a"; "b"; "x"]} ∅
    (<["a" := mkClient make_chan ∅ true]>
       (<["b" := mkClient make_chan ∅ true]>
          (<["x" := mkClient make_chan ∅ true]> ∅)))
    unlocked [LogConnected "a"; LogConnected "b"; LogConnected "x"].

(** [ex_three] after [a], [b] and [x] joined room [lobby] and [x] left it
    again. *)
Definition ex_lobby : Server :=
  mkServer {["a"; "b"; "x"]} {["lobby" := {["a"; "b"]}]}
    (<["a" := mkClient make_chan {["lobby"]} true]>
       (<["b" := mkClient make_chan {["lobby"]} true]>
          (<["x" := mkClient make_chan ∅ true]> ∅)))
    unlocked [LogConnected "a"; LogConnected "b"; LogConnected "x"].

(** Three predicates: one logs and lets the message through, one blocks, and
    one would panic if it were ever run. *)
Definition ex_mw_log : Middleware :=
  fun c msg => modify (log_Printf (LogUser (Event msg))) ;;; ret true.
Definition ex_mw_block : Middleware := fun _ _ => ret false.
Definition ex_mw_panic : Middleware := fun _ _ => panic "predicate ran".

(** A handler that answers the sender; it works for any payload type. *)
Definition ex_reply {T : Type} : HandlerFunc T :=
  fun c _ => Emit c "reply" ANil.

(** A codec for the closed examples.  It follows [encoding/json] on the few
    values the examples use: [null], the booleans, integers, the empty
    string, and the empty byte slice, which [json.Marshal] writes as the
    base64 string of no bytes, that is as the empty JSON string. *)
Definition two_quotes : string :=
  String (Ascii.ascii_of_nat 34) (String (Ascii.ascii_of_nat 34) EmptyString).

#[local] Instance ex_Marshal : Marshal := fun v =>
  match v with
  | ANil => Ok "null"
  | ABool true => Ok "true"
  | ABool false => Ok "false"
  | ANumber z => Ok (pretty z)
  | AString EmptyString => Ok two_quotes
  | ABytes [] => Ok two_quotes
  | _ => Err (JsonError "outside the fragment")
  end.

#[local] Instance ex_Unmarshal_any : Unmarshal any := fun bytes =>
  if decide (bytes = "null") then Ok ANil
  else if decide (bytes = "true") then Ok (ABool true)
  else if decide (bytes = "false") then Ok (ABool false)
  else if decide (bytes = two_quotes) then Ok (AString EmptyString)
  else Err (JsonError "outside the fragment").

#[local] Instance ex_Unmarshal_bool : Unmarshal bool := fun bytes =>
  if decide (bytes = "null") then Ok false
  else if decide (bytes = "true") then Ok true
  else if decide (bytes = "false") then Ok false
  else Err (JsonError "cannot unmarshal into Go value of type bool").

(** A dispatch table with an untyped handler for [ping] behind the three
    predicates, registered in this order. *)
Definition ex_guarded : Dispatch :=
  Use (Use (Use (On NewDispatch "ping" ex_reply) ex_mw_log) ex_mw_block) ex_mw_panic.

(** A typed handler for [flag], whose payload is to be a JSON boolean. *)
Definition ex_typed : Dispatch := OnTyped (T := bool) NewDispatch "flag" ex_reply.

Definition ex_bad_flag : Message := mkMessage "flag" (ANumber 1).
Definition ex_good_flag : Message := mkMessage "flag" (ABool true).

(** An untyped [disconnect] handler that writes a log line, as the one of
    [test/main.go] does. *)
Definition ex_farewell : HandlerFunc any :=
  fun _ _ => modify (log_Printf (LogUser "bye")).

Definition ex_bye : Dispatch := On NewDispatch "disconnect" ex_farewell.

(** An untyped handler that logs which kind of value it was given. *)
Definition ex_kind : HandlerFunc any :=
  fun _ data =>
    modify (log_Printf (LogUser match data with
                                | ABytes _ => "bytes"
                                | AString _ => "string"
                                | _ => "other"
                                end)).

(** ** Further example states *)

(** [ex_lobby] with 256 messages waiting in the queue of [b]. *)
Definition ex_lobby_b_full : Server :=
  mkServer {["a"; "b"; "x"]} {["lobby" := {["a"; "b"]}]}
    (<["a" := mkClient make_chan {["lobby"]} true]>
       (<["b" := mkClient (mkChan (replicate 256 ex_msg) false) {["lobby"]} true]>
          (<["x" := mkClient make_chan ∅ true]> ∅)))
    unlocked [LogConnected "a"; LogConnected "b"; LogConnected "x"].

(** ** Runs of the hub and its sessions *)

(** Every session in the registry has an open outbound queue. *)
Definition registry_live (s : Server) : Prop := ∀ k, k ∈ clients s → live s k.

(** What happens to a server: a connection is admitted ([handleWebSocket]
    allocates the client and the hub registers it), a deregistration request
    reaches the hub, or application code calls one of the client methods. *)
Inductive Action : Type :=
| AConnect (id : string)
| ADisconnect (c : string)
| AEmit (c event : string) (data : any)
| AJoin (c room : string)
| ALeave (c room : string)
| ABroadcast (c event : string) (data : any)
| ABroadcastToRoom (c room event : string) (data : any).

Definition run_action (d : Dispatch) (a : Action) : M unit :=
  match a with
  | AConnect id => new_client id ;;; run_register d id
  | ADisconnect c => run_unregister d c
  | AEmit c event data => Emit c event data
  | AJoin c room => Join c room
  | ALeave c room => Leave c room
  | ABroadcast c event data => Broadcast c event data
  | ABroadcastToRoom c room event data => BroadcastToRoom c room event data
  end.

Fixpoint run_actions (d : Dispatch) (acts : list Action) : M unit :=
  match acts with
  | [] => ret tt
  | a :: acts' => run_action d a ;;; run_actions d acts'
  end.

(** A short life of a server: two admissions, a join, sends, a departure. *)
Definition ex_acts : list Action :=
  [AConnect "a"; AConnect "b"; AJoin "a" "lobby"; AEmit "b" "hello" ANil;
   ABroadcast "a" "ping" (ANumber 1); ABroadcastToRoom "b" "lobby" "ping" (ANumber 1);
   ADisconnect "b"; ALeave "a" "lobby"].

(** The struct type of the connect handler in [test/main.go].  Its decoder
    takes [null] (the value stays zero) and JSON objects; the example codec
    writes no objects, so here every other input is an error. *)
Inductive TEST : Type := mkTEST (Message_ : string).

#[local] Instance ex_Unmarshal_TEST : Unmarshal TEST := fun bytes =>
  if decide (bytes = "null") then Ok (mkTEST EmptyString)
  else Err (JsonError "cannot unmarshal into Go value of type TEST").

(** ** Client.writePump *)

(** What [writePump] asks of the connection: [WriteJSON] of a value, or
    [WriteMessage] of a control frame. *)
Inductive WireCall : Type :=
| WriteJSON (v : any)
| WriteMessage (messageType : Z) (data : list Z).

(** [websocket.CloseMessage] *)
Definition CloseMessage : Z := 8.

(** The [map[string]interface{}] built for each message; a Go map has no
    order, the two entries are listed as the source lists them. *)
Definition response (message : Message) : any :=
  AMap [("event", AString (Event message)); ("data", Data message)].

(** How the loop is left: the queue was found closed, a write failed, or it
    is not left, the loop waiting on the empty queue or on the stream. *)
Inductive WriteExit : Type :=
| QueueClosed
| WriteFailed (err : error)
| Receiving
| Writing.

Definition set_buf (pending : list Message) (c : Client) : Client :=
  set_send (fun ch => mkChan pending (closed ch)) c.

(** The [for] loop.  It runs once for each queued message, which only this
    loop takes out: [pending] is what is in the queue.  [writes] is what the
    successive [WriteJSON] calls return; the result of the [WriteMessage]
    call is not looked at.  The calls made are returned in order.  The log
    line for a failed write is recorded without the error it prints, which
    is in the exit. *)
Fixpoint writePump_loop (c : string) (pending : list Message)
    (writes : list (option error)) : M (list WireCall * WriteExit) :=
  match pending with
  | [] =>
      cl <- deref c ;;
      if closed (send cl) then ret ([WriteMessage CloseMessage []], QueueClosed)
      else ret ([], Receiving)
  | message :: pending' =>
      cl <- deref c ;;
      modify (set_heap <[c := set_buf pending' cl]>) ;;;
      match writes with
      | [] => ret ([WriteJSON (response message)], Writing)
      | Some err :: _ =>
          modify (log_Printf (LogUser "WebSocket write error")) ;;;
          ret ([WriteJSON (response message)], WriteFailed err)
      | None :: writes' =>
          r <- writePump_loop c pending' writes' ;;
          ret (WriteJSON (response message) :: r.1, r.2)
      end
  end.

(** [writePump], with its deferred [c.conn.Close()]. *)
Definition writePump (c : string) (writes : list (option error))
    : M (list WireCall * WriteExit) :=
  cl <- deref c ;;
  r <- writePump_loop c (buf (send cl)) writes ;;
  match r.2 with
  | QueueClosed | WriteFailed _ =>
      cl' <- deref c ;;
      modify (set_heap <[c := close_conn cl']>) ;;;
      ret r
  | Receiving | Writing => ret r
  end.

(** Several messages emitted to one session, one after the other. *)
Fixpoint Emit_each (c : string) (messages : list Message) : M unit :=
  match messages with
  | [] => ret tt
  | message :: messages' =>
      Emit c (Event message) (Data message) ;;; Emit_each c messages'
  end.

(** [ex_two] with two messages waiting in the queue of [a]. *)
Definition ex_a_waiting : Server :=
  mkServer {["a"; "b"]} ∅
    (<["a" := mkClient (mkChan [ex_msg; ex_good_flag] false) ∅ true]>
       (<["b" := mkClient make_chan ∅ true]> ∅))
    unlocked [LogConnected "a"; LogConnected "b"].

(** ** NewServer's configuration and handleWebSocket *)

(** The part of [websocket.Upgrader] the code looks at, and [ServerConfig].
    A request is an opaque value. *)
Record Upgrader : Type := mkUpgrader { CheckOrigin : option (string → bool) }.

Record ServerConfig : Type := mkServerConfig {
  cfg_Upgrader : Upgrader;
  cfg_AuthMiddleware : option (string → bool)
}.

(** The two fields of [Server] that [NewServer] sets from the configuration
    and that only [handleWebSocket] reads. *)
Record Gateway : Type := mkGateway {
  upgrader : Upgrader;
  authMiddleware : option (string → bool)
}.

(** [NewServer], as far as these two fields go: allow-all defaults, replaced
    by what the configuration gives. *)
Definition NewGateway (config : option ServerConfig) : Gateway :=
  let s := mkGateway (mkUpgrader (Some (fun _ => true))) (Some (fun _ => true)) in
  match config with
  | None => s
  | Some config =>
      let s1 := match CheckOrigin (cfg_Upgrader config) with
                | Some _ => mkGateway (cfg_Upgrader config) (authMiddleware s)
                | None => s
                end in
      match cfg_AuthMiddleware config with
      | Some auth => mkGateway (upgrader s1) (Some auth)
      | None => s1
      end
  end.

Inductive HttpReply : Type :=
| Unauthorized
| UpgradeFailed (err : error)
| Switched.

(** [handleWebSocket].  [Upgrade] is [s.upgrader.Upgrade], [id] what
    [uuid.NewString()] returns; [s.register <- client] is followed by the
    hub's [register] case.  The two pumps it starts are run separately.  The
    log line for a failed upgrade is recorded without the error it prints,
    which is in the reply. *)
Definition handleWebSocket (g : Gateway) (d : Dispatch)
    (Upgrade : Upgrader → string → result unit) (r : string) (id : string)
    : M HttpReply :=
  if match authMiddleware g with
     | Some auth => negb (auth r)
     | None => false
     end
  then ret Unauthorized
  else
    match Upgrade (upgrader g) r with
    | Err err =>
        modify (log_Printf (LogUser "Failed to upgrade connection")) ;;;
        ret (UpgradeFailed err)
    | Ok _ =>
        new_client id ;;;
        run_register d id ;;;
        ret Switched
    end.

(** An upgrade that always succeeds, for the examples. *)
Definition ex_Upgrade : Upgrader → string → result unit := fun _ _ => Ok tt.

(** ** The steps of Handle *)

(** What [Handle] does with a payload, in order: the two calls into
    [encoding/json] and the call of the handler function, up to the first
    step that fails. *)
Inductive HandleStep (T : Type) : Type :=
| StepMarshal (data : any)
| StepUnmarshal (bytes : string)
| StepInvoke (payload : T).
Arguments StepMarshal {T} data.
Arguments StepUnmarshal {T} bytes.
Arguments StepInvoke {T} payload.

Definition Handle_steps `{!Marshal} {T : Type} `{!Unmarshal T} (data : any)
    : list (HandleStep T) :=
  match json_Marshal data with
  | Err _ => [StepMarshal data]
  | Ok bytes =>
      StepMarshal data ::
      match json_Unmarshal bytes with
      | Err _ => [StepUnmarshal bytes]
      | Ok payload => [StepUnmarshal bytes; StepInvoke payload]
      end
  end.

(** * Properties *)

(** ** The example states are states the code reaches *)

Lemma ex_two_admitted :
  (new_client "a" ;;; run_register NewDispatch "a" ;;;
   new_client "b" ;;; run_register NewDispatch "b") NewServer = Ret tt ex_two.
Proof. vm_compute. reflexivity. Qed.

Lemma ex_three_admitted :
  (new_client "x" ;;; run_register NewDispatch "x") ex_two = Ret tt ex_three.
Proof. vm_compute. reflexivity. Qed.

Lemma ex_lobby_reached :
  run_ops [OpJoin "a" "lobby"; OpJoin "b" "lobby"; OpJoin "x" "lobby";
           OpLeave "x" "lobby"] ex_three = Ret tt ex_lobby.
Proof. vm_compute. reflexivity. Qed.

Lemma ex_b_full_reached :
  for_each (replicate 256 "b") (fun k => Emit k "ping" (ANumber 1)) ex_two
    = Ret tt ex_b_full.
Proof. vm_compute. reflexivity. Qed.

(** ** Rooms *)

Lemma Join_spec c room s cl :
  heap s !! c = Some cl →
  Join c room s =
    Ret tt (mkServer (clients s)
              (<[room := default ∅ (rooms s !! room) ∪ {[c]}]> (rooms s))
              (<[c := set_c_rooms (fun rs => rs ∪ {[room]}) cl]> (heap s))
              (mu s) (logs s)).
Proof.
  intros Hc. unfold Join, bind, deref, modify. rewrite Hc. simpl.
  f_equal. unfold set_rooms, set_heap. simpl. f_equal.
  destruct (rooms s !! room) as [members|] eqn:Hr; simpl.
  - apply map_eq. intros r. rewrite lookup_alter, lookup_insert.
    case_decide; subst; by rewrite ?Hr.
  - rewrite alter_insert_eq. f_equal. 
Qed.

Lemma leaveRoom_spec c room s cl :
  mu s = unlocked →
  heap s !! c = Some cl →
  leaveRoom c room s =
    Ret tt (mkServer (clients s) (rooms_without c room (rooms s))
              (<[c := set_c_rooms (fun rs => rs ∖ {[room]}) cl]> (heap s))
              unlocked (logs s)).
Proof.
  intros Hmu Hc. unfold leaveRoom, bind, Lock, Unlock, deref, modify.
  rewrite Hmu. simpl. rewrite Hc. reflexivity.
Qed.

Lemma is_member_Join s c room cl c' room' :
  heap s !! c = Some cl →
  ∀ s', Join c room s = Ret tt s' →
  is_member s' c' room' ↔ (c' = c ∧ room' = room) ∨ is_member s c' room'.
Proof.
  intros Hc s' Hs'. rewrite (Join_spec _ _ _ _ Hc) in Hs'. injection Hs' as <-.
  unfold is_member. simpl. split.
  - intros (members & Hm & Hin). rewrite lookup_insert in Hm. case_decide.
    + subst. injection Hm as <-. apply elem_of_union in Hin as [Hin | Hin].
      * right. destruct (rooms s !! room') eqn:E; simpl in Hin; [eauto | set_solver].
      * left. set_solver.
    + right. eauto.
  - intros [[-> ->] | (members & Hm & Hin)].
    + eexists. rewrite lookup_insert_eq. split; [done | set_solver].
    + destruct (decide (room = room')) as [-> | Hne].
      * eexists. rewrite lookup_insert_eq. split; [done |]. rewrite Hm. set_solver.
      * exists members. by rewrite lookup_insert_ne.
Qed.

Lemma is_member_rooms_without (rms : gmap string (gset string)) c room c' room' :
  (∃ members, rooms_without c room rms !! room' = Some members ∧ c' ∈ members) ↔
  (∃ members, rms !! room' = Some members ∧ c' ∈ members) ∧ ¬ (c' = c ∧ room' = room).
Proof.
  unfold rooms_without.
  destruct (rms !! room) as [ms|] eqn:Hr.
  - case_decide as Hsz.
    + apply size_empty_inv in Hsz. apply leibniz_equiv in Hsz. split.
      * intros (members & Hm & Hin). rewrite lookup_delete in Hm. case_decide; [done|].
        split; [eauto | naive_solver].
      * intros [(members & Hm & Hin) Hnot]. exists members.
        destruct (decide (room = room')) as [-> | ?].
        -- rewrite Hr in Hm. injection Hm as <-. set_solver.
        -- by rewrite lookup_delete_ne.
    + split.
      * intros (members & Hm & Hin). rewrite lookup_insert in Hm. case_decide.
        -- subst. injection Hm as <-. split; [exists ms; set_solver | set_solver].
        -- split; [eauto | naive_solver].
      * intros [(members & Hm & Hin) Hnot].
        destruct (decide (room = room')) as [-> | ?].
        -- rewrite Hr in Hm. injection Hm as <-. eexists. rewrite lookup_insert_eq.
           split; [done |]. set_solver.
        -- exists members. by rewrite lookup_insert_ne.
  - split; [| naive_solver]. intros (members & Hm & Hin). split; [eauto |].
    intros [-> ->]. congruence.
Qed.

Lemma rooms_agree_Join s c room cl :
  rooms_agree s → heap s !! c = Some cl →
  ∃ s', Join c room s = Ret tt s' ∧ rooms_agree s' ∧ mu s' = mu s ∧
        dom (heap s') = dom (heap s).
Proof.
  intros [Hagree Hne] Hc. eexists. split; [by apply Join_spec |].
  split; [split |].
  - intros c' cl' room' Hc'.
    rewrite (is_member_Join s c room cl c' room' Hc _ (Join_spec _ _ _ _ Hc)).
    simpl in Hc'. rewrite lookup_insert in Hc'. case_decide.
    + subst. injection Hc' as <-. simpl. rewrite elem_of_union, elem_of_singleton.
      rewrite (Hagree _ _ room' Hc). naive_solver.
    + rewrite (Hagree _ _ room' Hc'). naive_solver.
  - simpl. intros r members Hm. rewrite lookup_insert in Hm. case_decide.
    + injection Hm as <-. set_solver.
    + eauto.
  - simpl. split; [done |]. rewrite dom_insert_L. apply elem_of_dom_2 in Hc. set_solver.
Qed.

Lemma rooms_agree_leaveRoom s c room cl :
  rooms_agree s → mu s = unlocked → heap s !! c = Some cl →
  ∃ s', leaveRoom c room s = Ret tt s' ∧ rooms_agree s' ∧ mu s' = unlocked ∧
        dom (heap s') = dom (heap s).
Proof.
  intros [Hagree Hne] Hmu Hc. eexists. split; [by apply leaveRoom_spec |].
  split; [split |].
  - intros c' cl' room' Hc'. unfold is_member. simpl.
    rewrite is_member_rooms_without.
    simpl in Hc'. rewrite lookup_insert in Hc'. case_decide.
    + subst. injection Hc' as <-. simpl. rewrite elem_of_difference, elem_of_singleton.
      rewrite (Hagree _ _ room' Hc). unfold is_member. naive_solver.
    + rewrite (Hagree _ _ room' Hc'). unfold is_member. naive_solver.
  - simpl. intros r members. unfold rooms_without.
    destruct (rooms s !! room) as [ms|] eqn:Hr; [| by eauto].
    case_decide as Hsz.
    + rewrite lookup_delete. case_decide; [done | eauto].
    + rewrite lookup_insert. case_decide; [| by eauto].
      intros [= <-] Hempty. rewrite Hempty in Hsz. by rewrite size_empty in Hsz.
  - simpl. split; [done |]. rewrite dom_insert_L. apply elem_of_dom_2 in Hc. set_solver.
Qed.

Lemma run_ops_rooms_agree (ops : list RoomOp) (s : Server) :
  rooms_agree s → mu s = unlocked →
  Forall (fun op => op_client op ∈ dom (heap s)) ops →
  ∃ s', run_ops ops s = Ret tt s' ∧ rooms_agree s' ∧ mu s' = unlocked.
Proof.
  revert s. induction ops as [| op ops IH]; intros s Hinv Hmu Hall.
  - by exists s.
  - apply Forall_cons in Hall as [Hop Hall].
    apply elem_of_dom in Hop as [cl Hcl].
    assert (∃ s1, run_op op s = Ret tt s1 ∧ rooms_agree s1 ∧ mu s1 = unlocked ∧
                  dom (heap s1) = dom (heap s)) as (s1 & Hrun & Hinv1 & Hmu1 & Hdom).
    { destruct op as [c room | c room]; simpl in *.
      - destruct (rooms_agree_Join s c room cl Hinv Hcl) as (s1 & ? & ? & Hm & ?).
        exists s1. rewrite Hm. eauto.
      - by apply (rooms_agree_leaveRoom s c room cl). }
    destruct (IH s1 Hinv1 Hmu1) as (s' & Hrun' & Hinv' & Hmu').
    { by rewrite Hdom. }
    exists s'. simpl. unfold bind. rewrite Hrun. eauto.
Qed.

Lemma rooms_agree_fresh (s : Server) :
  rooms s = ∅ → map_Forall (fun _ cl => c_rooms cl = ∅) (heap s) → rooms_agree s.
Proof.
  intros Hr Hh. split.
  - intros c cl room Hc. rewrite (Hh c cl Hc). unfold is_member. rewrite Hr.
    split; [set_solver |]. intros (members & Hm & _). by rewrite lookup_empty in Hm.
  - intros room members. rewrite Hr. by rewrite lookup_empty.
Qed.

Lemma rooms_agree_ex_two : rooms_agree ex_two.
Proof.
  apply rooms_agree_fresh; [reflexivity |]. unfold ex_two. simpl.
  repeat (apply map_Forall_insert_2; [reflexivity |]). apply map_Forall_empty.
Qed.

(** C4. For every sequence of Join and Leave operations issued by allocated
    sessions, starting from a state where each session's local room set and
    the room index agree and no room is empty, every operation returns and
    after each of them (after every prefix of the sequence) the local sets
    and the room index still agree and no room entry is empty. *)
Theorem Join_Leave_keep_rooms_in_agreement (ops : list RoomOp) (s : Server) (n : nat) :
  rooms_agree s →
  mu s = unlocked →
  Forall (fun op => op_client op ∈ dom (heap s)) ops →
  ∃ s', run_ops (take n ops) s = Ret tt s' ∧ rooms_agree s'.
Proof.
  intros Hinv Hmu Hall.
  destruct (run_ops_rooms_agree (take n ops) s Hinv Hmu) as (s' & Hrun & Hinv' & _).
  - by apply Forall_take.
  - eauto.
Qed.

Lemma Join_Leave_keep_rooms_in_agreement_witness :
  ∃ s', run_ops (take 5 ex_ops) ex_two = Ret tt s' ∧ rooms_agree s'.
Proof.
  apply (Join_Leave_keep_rooms_in_agreement ex_ops ex_two 5).
  - exact rooms_agree_ex_two.
  - reflexivity.
  - repeat constructor; apply elem_of_dom; eexists; vm_compute; reflexivity.
Defined.

(** ** The non-blocking send *)

Lemma Emit_open (c event : string) (data : any) (s : Server) (cl : Client) :
  heap s !! c = Some cl →
  closed (send cl) = false →
  Emit c event data s =
    Ret tt (if decide (has_room cl)
            then set_heap <[c := enqueued (mkMessage event data) cl]> s
            else set_clients (fun cs => cs ∖ {[c]}) (set_heap <[c := shed cl]> s)).
Proof.
  intros Hc Hopen. unfold Emit, bind, deref. rewrite Hc, Hopen. unfold has_room.
  by destruct (decide _).
Qed.

Lemma Emit_closed (c event : string) (data : any) (s : Server) (cl : Client) :
  heap s !! c = Some cl →
  closed (send cl) = true →
  Emit c event data s = Panic "send on closed channel".
Proof. intros Hc Hcl. unfold Emit, bind, deref. by rewrite Hc, Hcl. Qed.

(** C5, as the code has it.  Emit never blocks.  On a session whose queue
    has not been closed: if the queue
    has free space the message goes to its back and the registry is
    unchanged; if the queue is full the queue is closed and the session is
    taken out of the registry by the Emit call itself, which takes no lock
    and leaves the room index alone. *)
Theorem Emit_enqueues_or_sheds (c event : string) (data : any) (s : Server) (cl : Client) :
  heap s !! c = Some cl →
  closed (send cl) = false →
  ∃ s' cl',
    Emit c event data s = Ret tt s' ∧
    heap s' !! c = Some cl' ∧ mu s' = mu s ∧ rooms s' = rooms s ∧ logs s' = logs s ∧
    (length (buf (send cl)) < send_cap →
       buf (send cl') = buf (send cl) ++ [mkMessage event data] ∧
       closed (send cl') = false ∧ clients s' = clients s) ∧
    (¬ length (buf (send cl)) < send_cap →
       buf (send cl') = buf (send cl) ∧
       closed (send cl') = true ∧ clients s' = clients s ∖ {[c]} ∧ c ∉ clients s').
Proof.
  intros Hc Hopen. rewrite (Emit_open _ _ _ _ _ Hc Hopen). unfold has_room.
  destruct (decide _) as [Hroom | Hfull].
  - eexists _, _. split; [done |]. simpl. rewrite lookup_insert_eq.
    repeat split; done.
  - eexists _, _. split; [done |]. simpl. rewrite lookup_insert_eq.
    repeat split; try done. set_solver.
Qed.

Lemma Emit_enqueues_or_sheds_witness :
  (∃ s' cl',
     Emit "a" "ping" (ANumber 1) ex_b_full = Ret tt s' ∧
     heap s' !! "a" = Some cl' ∧ buf (send cl') = [ex_msg] ∧
     clients s' = clients ex_b_full) ∧
  (∃ s' cl',
     Emit "b" "ping" (ANumber 1) ex_b_full = Ret tt s' ∧
     heap s' !! "b" = Some cl' ∧ closed (send cl') = true ∧ "b" ∉ clients s').
Proof.
  split.
  - destruct (Emit_enqueues_or_sheds "a" "ping" (ANumber 1) ex_b_full
                (mkClient make_chan ∅ true))
      as (s' & cl' & Hrun & Hcl' & _ & _ & _ & Hfree & _);
      [reflexivity | reflexivity |].
    exists s', cl'. destruct Hfree as (Hbuf & _ & Hreg); [simpl; unfold send_cap; lia |].
    by rewrite Hbuf.
  - destruct (Emit_enqueues_or_sheds "b" "ping" (ANumber 1) ex_b_full
                (mkClient (mkChan (replicate 256 ex_msg) false) ∅ true))
      as (s' & cl' & Hrun & Hcl' & _ & _ & _ & _ & Hfull);
      [reflexivity | reflexivity |].
    exists s', cl'. destruct Hfull as (_ & Hclosed & _ & Hout).
    + cbn [buf send]. rewrite length_replicate. unfold send_cap. lia.
    + done.
Defined.

Lemma ex_b_gone_deregistered :
  run_unregister NewDispatch "b" ex_two = Ret tt ex_b_gone.
Proof. vm_compute. reflexivity. Qed.

(** C5 as stated fails on a session whose queue is already closed.  After the
    hub deregistered [b] its queue is empty, so it has free space, and after
    Emit shed [b] its queue is full: the claim promises an enqueue in the
    first state and a shed in the second, and in both Emit panics on the
    closed channel. *)
Lemma Emit_on_a_closed_queue_panics :
  (∃ cl, heap ex_b_gone !! "b" = Some cl ∧
         length (buf (send cl)) < send_cap ∧
         Emit "b" "ping" (ANumber 1) ex_b_gone = Panic "send on closed channel") ∧
  (∃ s1 cl, Emit "b" "ping" (ANumber 1) ex_b_full = Ret tt s1 ∧
            heap s1 !! "b" = Some cl ∧
            ¬ length (buf (send cl)) < send_cap ∧
            Emit "b" "ping" (ANumber 1) s1 = Panic "send on closed channel").
Proof.
  split.
  - eexists. split; [reflexivity |]. split; [simpl; unfold send_cap; lia |].
    reflexivity.
  - eexists _, _. split; [vm_compute; reflexivity |].
    split; [reflexivity |]. split; [| reflexivity].
    intros Hlt. exact (Nat.lt_irrefl 256 Hlt).
Qed.

Lemma Emit_live (c event : string) (data : any) (s : Server) (cl : Client) :
  heap s !! c = Some cl →
  closed (send cl) = false →
  Emit c event data s =
    Ret tt (mkServer
              (if decide (has_room cl) then clients s else clients s ∖ {[c]})
              (rooms s)
              (<[c := sent (mkMessage event data) cl]> (heap s))
              (mu s) (logs s)).
Proof.
  intros Hc Hopen. rewrite (Emit_open _ _ _ _ _ Hc Hopen). unfold sent.
  by destruct (decide _).
Qed.

(** Emitting to each of a duplicate-free list of live clients: every one of
    them gets the non-blocking send, nobody else is touched, and exactly the
    ones whose queue was full leave the registry. *)
Lemma for_each_Emit (keys : list string) (event : string) (data : any) (s : Server) :
  NoDup keys →
  (∀ k, k ∈ keys → live s k) →
  ∃ s',
    for_each keys (fun k => Emit k event data) s = Ret tt s' ∧
    mu s' = mu s ∧ rooms s' = rooms s ∧ logs s' = logs s ∧
    (∀ k, k ∉ keys → heap s' !! k = heap s !! k) ∧
    (∀ k cl, k ∈ keys → heap s !! k = Some cl →
       heap s' !! k = Some (sent (mkMessage event data) cl)) ∧
    (∀ k, k ∈ clients s' ↔
       k ∈ clients s ∧ ¬ (k ∈ keys ∧ ∃ cl, heap s !! k = Some cl ∧ ¬ has_room cl)).
Proof.
  revert s. induction keys as [| k keys IH]; intros s Hnd Hlive.
  - exists s. simpl. split_and!; try done.
    + intros k cl Hk. by apply not_elem_of_nil in Hk.
    + intros k. split; [| by intros [? _]].
      intros Hk. split; [done |]. intros [Hk' _]. by apply not_elem_of_nil in Hk'.
  - apply NoDup_cons in Hnd as [Hk Hnd].
    destruct (Hlive k) as (cl & Hcl & Hopen); [by left |].
    pose proof (Emit_live k event data s cl Hcl Hopen) as Hstep.
    set (s1 := mkServer _ _ _ _ _) in Hstep.
    destruct (IH s1 Hnd) as (s' & Hrun & Hmu & Hrooms & Hlogs & Hout & Hin & Hreg).
    { intros k' Hk'. destruct (Hlive k') as (cl' & Hcl' & Hopen'); [by right |].
      exists cl'. split; [| done]. simpl. rewrite lookup_insert_ne; [done |].
      intros ->. done. }
    exists s'. simpl. unfold bind at 1. rewrite Hstep.
    split_and!; try done.
    + intros k' Hk'. apply not_elem_of_cons in Hk' as [Hne Hk'].
      rewrite (Hout k' Hk'). simpl. by rewrite lookup_insert_ne.
    + intros k' cl' Hk' Hcl'. apply elem_of_cons in Hk' as [-> | Hk'].
      * rewrite (Hout k Hk). simpl. rewrite lookup_insert_eq. congruence.
      * apply Hin; [done |]. simpl. rewrite lookup_insert_ne; [done |].
        intros ->. done.
    + intros k'. split.
      * intros Hk'. apply Hreg in Hk' as [Hk' Hnot]. simpl in Hk', Hnot. split.
        -- destruct (decide (has_room cl)); set_solver.
        -- intros (Hmem & cl' & Hcl' & Hfull).
           apply elem_of_cons in Hmem as [-> | Hmem].
           ++ assert (cl' = cl) as -> by congruence.
              destruct (decide (has_room cl)); [done | set_solver].
           ++ apply Hnot. split; [done |]. exists cl'. split; [| done].
              rewrite lookup_insert_ne; [done |]. intros ->. done.
      * intros [Hk' Hnot]. apply Hreg. simpl. split.
        -- destruct (decide (has_room cl)) as [? | Hfull]; [done |].
           apply elem_of_difference. split; [done |]. intros ->%elem_of_singleton.
           apply Hnot. split; [by left | eauto].
        -- intros (Hmem & cl' & Hcl' & Hfull). apply Hnot. split; [by right |].
           exists cl'. split; [| done]. rewrite lookup_insert_ne in Hcl'; [done |].
           intros ->. done.
Qed.

Lemma for_each_skip (keys : list string) (c : string) (body : string → M unit) (s : Server) :
  for_each keys (fun k => if decide (k ≠ c) then body k else ret tt) s =
  for_each (filter (fun k => k ≠ c) keys) body s.
Proof.
  revert s. induction keys as [| k keys IH]; intros s; [done |].
  rewrite filter_cons. simpl. destruct (decide (k ≠ c)); simpl; unfold bind.
  - destruct (body k s); [apply IH | done | done].
  - apply IH.
Qed.

Lemma RLock_free (s : Server) :
  writer (mu s) = false →
  RLock s = Ret tt (set_mu (mkMu (S (readers (mu s))) false) s).
Proof. intros Hw. unfold RLock. by rewrite Hw. Qed.

Lemma RUnlock_after_RLock (s s' : Server) :
  writer (mu s) = false →
  mu s' = mkMu (S (readers (mu s))) false →
  RUnlock s' = Ret tt (set_mu (mu s) s').
Proof.
  intros Hw Hmu. unfold RUnlock. rewrite Hmu. simpl. do 2 f_equal.
  destruct (mu s) as [n w]. simpl in *. by subst.
Qed.

(** ** Room broadcast *)

(** C8, as the code has it.  When every member of the room other than c has
    an open queue, BroadcastToRoom called on c returns and gives Emit's
    non-blocking send to every current member of the room other than c: the
    message is at the back of the queue of each of them that had room, and
    each of them whose queue was full is shed instead, its queue closed with
    its content as it was and the session out of the registry.  The queue of
    c itself is untouched, so is every session that is not a member of the
    room at the time of the call, and nobody else leaves the registry. *)
Theorem BroadcastToRoom_sends_or_sheds_the_other_members
    (c room event : string) (data : any) (s : Server) :
  is_Some (heap s !! c) →
  writer (mu s) = false →
  (∀ k, is_member s k room → k ≠ c → live s k) →
  ∃ s',
    BroadcastToRoom c room event data s = Ret tt s' ∧
    rooms s' = rooms s ∧ mu s' = mu s ∧ logs s' = logs s ∧
    (∀ k cl, is_member s k room → k ≠ c → heap s !! k = Some cl →
       ∃ cl',
         heap s' !! k = Some cl' ∧ c_rooms cl' = c_rooms cl ∧
         (length (buf (send cl)) < send_cap →
            buf (send cl') = buf (send cl) ++ [mkMessage event data] ∧
            closed (send cl') = false ∧ (k ∈ clients s' ↔ k ∈ clients s)) ∧
         (¬ length (buf (send cl)) < send_cap →
            buf (send cl') = buf (send cl) ∧
            closed (send cl') = true ∧ k ∉ clients s')) ∧
    heap s' !! c = heap s !! c ∧
    (c ∈ clients s' ↔ c ∈ clients s) ∧
    (∀ k, ¬ is_member s k room →
       heap s' !! k = heap s !! k ∧ (k ∈ clients s' ↔ k ∈ clients s)).
Proof.
  intros [clc Hc] Hw Hlive.
  unfold BroadcastToRoom, bind at 1, deref. rewrite Hc.
  unfold bind at 1. rewrite (RLock_free s Hw).
  set (s1 := set_mu _ s). unfold bind at 1.
  change (rooms s1) with (rooms s).
  destruct (rooms s !! room) as [members |] eqn:Hroom.
  - rewrite for_each_skip.
    destruct (for_each_Emit (filter (fun k => k ≠ c) (elements members)) event data s1)
      as (s2 & Hrun & Hmu & Hrooms & Hlogs & Hout & Hin & Hreg).
    { apply NoDup_filter, NoDup_elements. }
    { intros k [Hne Hk%elem_of_elements]%list_elem_of_filter.
      apply Hlive; [| done]. exists members. done. }
    rewrite Hrun. rewrite (RUnlock_after_RLock s s2 Hw Hmu).
    assert (∀ k, k ∈ filter (fun k => k ≠ c) (elements members) ↔
                 is_member s k room ∧ k ≠ c) as Hfilter.
    { intros k. rewrite list_elem_of_filter, elem_of_elements. split.
      - intros [Hne Hk]. split; [by exists members | done].
      - intros [(members' & Hm' & Hk) Hne]. split; [done |].
        rewrite Hroom in Hm'. by injection Hm' as <-. }
    eexists. split; [done |]. simpl. split_and!; try done.
    + intros k cl Hmem Hne Hcl. exists (sent (mkMessage event data) cl).
      split; [apply Hin; [by apply Hfilter | done] |].
      unfold sent, has_room. destruct (decide _) as [Hroom' | Hfull]; simpl.
      * split_and!; [done | | intros Hn; by destruct Hn].
        intros _. destruct (Hlive k Hmem Hne) as (cl0 & Hcl0 & Hopen).
        assert (cl0 = cl) as -> by congruence.
        split_and!; [done | done |]. rewrite Hreg. split; [by intros [? _] |].
        intros Hk. split; [done |]. intros (_ & cl1 & Hcl1 & Hfull).
        simpl in Hcl1. assert (cl1 = cl) as -> by congruence. done.
      * split_and!; [done | intros Hl; by destruct Hfull |].
        intros _. split_and!; [done | done |]. rewrite Hreg. intros [_ Hnot].
        apply Hnot. split; [by apply Hfilter | eauto].
    + rewrite Hout; [done |]. intros [Hne _]%list_elem_of_filter. done.
    + rewrite Hreg. split; [by intros [? _] |]. intros Hk. split; [done |].
      intros [[_ Hne]%Hfilter _]. done.
    + intros k Hnot. split.
      * apply Hout. intros [Hmem _]%Hfilter. done.
      * rewrite Hreg. split; [by intros [? _] |]. intros Hk. split; [done |].
        intros [[Hmem _]%Hfilter _]. done.
  - simpl. rewrite (RUnlock_after_RLock s s1 Hw eq_refl).
    eexists. split; [done |]. simpl. split_and!; try done.
    intros k cl (members' & Hm' & _). congruence.
Qed.

Lemma BroadcastToRoom_sends_or_sheds_the_other_members_witness :
  ∃ s',
    BroadcastToRoom "a" "lobby" "ping" (ANumber 1) ex_lobby = Ret tt s' ∧
    (∃ clb, heap s' !! "b" = Some clb ∧ buf (send clb) = [ex_msg]) ∧
    heap s' !! "a" = heap ex_lobby !! "a" ∧
    heap s' !! "x" = heap ex_lobby !! "x".
Proof.
  destruct (BroadcastToRoom_sends_or_sheds_the_other_members
              "a" "lobby" "ping" (ANumber 1) ex_lobby)
    as (s' & Hrun & _ & _ & _ & Hmembers & Hself & _ & Hrest).
  - eexists. reflexivity.
  - reflexivity.
  - intros k (members & Hm & Hk) Hne. unfold ex_lobby in Hm. simpl in Hm.
    rewrite lookup_singleton_eq in Hm. injection Hm as <-.
    assert (k = "b") as -> by set_solver.
    eexists. split; reflexivity.
  - exists s'. split; [done |]. split_and!.
    + destruct (Hmembers "b" (mkClient make_chan {["lobby"]} true))
        as (clb & Hb & _ & Hfree & _).
      * exists {["a"; "b"]}. split; [apply lookup_singleton_eq | set_solver].
      * done.
      * reflexivity.
      * exists clb. split; [done |].
        destruct Hfree as (Hbuf & _); [simpl; unfold send_cap; lia | done].
    + done.
    + apply Hrest. intros (members & Hm & Hk). unfold ex_lobby in Hm. simpl in Hm.
      rewrite lookup_singleton_eq in Hm. injection Hm as <-. set_solver.
Defined.

(** C8 as stated fails on a member whose queue is full, and on one whose
    queue is closed.  In [ex_lobby_b_full] session [b] is a member of [lobby]
    other than the caller [a], yet the call enqueues nothing to it: it closes
    the queue of [b], the 256 messages in it as they were.  Emit leaves [b]
    in the room, so the same call made again panics. *)
Lemma BroadcastToRoom_enqueues_nothing_to_a_full_member :
  is_member ex_lobby_b_full "b" "lobby" ∧
  ∃ s' clb,
    BroadcastToRoom "a" "lobby" "ping" (ANumber 1) ex_lobby_b_full = Ret tt s' ∧
    heap s' !! "b" = Some clb ∧
    buf (send clb) = replicate 256 ex_msg ∧ closed (send clb) = true ∧
    is_member s' "b" "lobby" ∧
    BroadcastToRoom "a" "lobby" "ping" (ANumber 1) s' = Panic "send on closed channel".
Proof.
  split.
  - exists {["a"; "b"]}. split; [apply lookup_singleton_eq | set_solver].
  - eexists _, _. split; [vm_compute; reflexivity |].
    split; [reflexivity |]. split; [reflexivity |]. split; [reflexivity |].
    split; [| vm_compute; reflexivity].
    exists {["a"; "b"]}. split; [reflexivity | set_solver].
Qed.

(** ** The inbound path: middleware and dispatch *)

Lemma run_middleware_app (pre post : list Middleware) (c : string) (msg : Message)
    (s : Server) :
  run_middleware (pre ++ post) c msg s =
  (ok <- run_middleware pre c msg ;;
   if ok then run_middleware post c msg else ret false) s.
Proof.
  revert s. induction pre as [| mw pre IH]; intros s; [done |].
  simpl. unfold bind in *.
  destruct (mw c msg s) as [[] s1 | |]; [| done..].
  apply IH.
Qed.

Lemma dispatch_blocked (d : Dispatch) (c : string) (msg : Message) (s s2 : Server) :
  run_middleware (middleware d) c msg s = Ret false s2 →
  dispatch d c msg s = Ret tt s2.
Proof. intros H. unfold dispatch, bind. by rewrite H. Qed.

Lemma dispatch_passed (d : Dispatch) (c : string) (msg : Message) (s s1 : Server) :
  run_middleware (middleware d) c msg s = Ret true s1 →
  dispatch d c msg s = call_handler d c msg s1.
Proof. intros H. unfold dispatch, bind. by rewrite H. Qed.

Lemma readPump_loop_frame (d : Dispatch) (c : string) (msg : Message)
    (frames : list (result Message)) (s s1 : Server) :
  dispatch d c msg s = Ret tt s1 →
  readPump_loop d c (Ok msg :: frames) s = readPump_loop d c frames s1.
Proof. intros H. simpl. unfold bind. by rewrite H. Qed.

(** C6. The middleware predicates run in registration order: a predicate
    added with Use runs after all earlier ones and only if they all said
    continue.  When a predicate says block, no later predicate and no handler
    runs: the state after the message is the state the blocking predicate
    left, whatever the later predicates and the dispatch table are, and the
    loop goes on with the next frame.  When all say continue, the handler
    lookup follows. *)
Theorem Middleware_runs_in_order_and_first_block_drops
    (d : Dispatch) (c : string) (msg : Message) (frames : list (result Message)) :
  (∀ (mw : Middleware) (s : Server),
     run_middleware (middleware (Use d mw)) c msg s =
     (ok <- run_middleware (middleware d) c msg ;;
      if ok then mw c msg else ret false) s) ∧
  (∀ (pre post : list Middleware) (blocker : Middleware) (s s1 s2 : Server),
     middleware d = pre ++ blocker :: post →
     run_middleware pre c msg s = Ret true s1 →
     blocker c msg s1 = Ret false s2 →
     dispatch d c msg s = Ret tt s2 ∧
     readPump_loop d c (Ok msg :: frames) s = readPump_loop d c frames s2) ∧
  (∀ (s s1 : Server),
     run_middleware (middleware d) c msg s = Ret true s1 →
     dispatch d c msg s = call_handler d c msg s1).
Proof.
  split_and!.
  - intros mw s. unfold Use. simpl. rewrite run_middleware_app. unfold bind.
    destruct (run_middleware (middleware d) c msg s) as [[] s1 | |]; [| done..].
    simpl. unfold bind, ret. by destruct (mw c msg s1) as [[] s2 | |].
  - intros pre post blocker s s1 s2 Hd Hpre Hblock.
    assert (dispatch d c msg s = Ret tt s2) as Hdrop.
    { apply dispatch_blocked. rewrite Hd, run_middleware_app. unfold bind.
      rewrite Hpre. simpl. unfold bind. by rewrite Hblock. }
    split; [done |]. by apply readPump_loop_frame.
  - intros s s1. apply dispatch_passed.
Qed.

Lemma Middleware_runs_in_order_and_first_block_drops_witness :
  dispatch ex_guarded "a" ex_msg ex_two = Ret tt (log_Printf (LogUser "ping") ex_two) ∧
  readPump_loop ex_guarded "a" [Ok ex_msg] ex_two =
    Ret Reading (log_Printf (LogUser "ping") ex_two).
Proof.
  destruct (Middleware_runs_in_order_and_first_block_drops ex_guarded "a" ex_msg [])
    as (_ & Hblock & _).
  destruct (Hblock [ex_mw_log] [ex_mw_panic] ex_mw_block ex_two
              (log_Printf (LogUser "ping") ex_two) (log_Printf (LogUser "ping") ex_two))
    as [Hdrop Hloop]; [reflexivity | reflexivity | reflexivity |].
  split; [exact Hdrop | exact Hloop].
Defined.

Lemma call_handler_unknown (d : Dispatch) (c : string) (msg : Message) (s : Server) :
  handlers d !! Event msg = None →
  writer (mu s) = false →
  call_handler d c msg s = Ret tt s.
Proof.
  intros Hnone Hw. unfold call_handler, bind. rewrite (RLock_free s Hw), Hnone.
  rewrite (RUnlock_after_RLock s (set_mu (mkMu (S (readers (mu s))) false) s) Hw eq_refl).
  by destruct s.
Qed.

Lemma call_handler_error (d : Dispatch) (handler : EventHandler) (c : string)
    (msg : Message) (e : error) (s : Server) :
  handlers d !! Event msg = Some handler →
  writer (mu s) = false →
  (∀ s0, handler c (Data msg) s0 = Ret (Some e) s0) →
  call_handler d c msg s =
    Ret tt (log_Printf (LogHandlerError (Event msg) e)
              (set_mu (mkMu (S (readers (mu s))) false) s)).
Proof.
  intros Hh Hw Herr. unfold call_handler, bind. rewrite (RLock_free s Hw), Hh.
  by rewrite Herr.
Qed.

(** C10. A message that passed the middleware chain and whose event has no
    entry in the dispatch table changes nothing: no handler runs, nothing is
    logged, nothing is enqueued, the lock is released, and the loop goes on
    with the next frame. *)
Theorem Unknown_event_is_ignored (d : Dispatch) (c : string) (msg : Message)
    (frames : list (result Message)) (s s1 : Server) :
  handlers d !! Event msg = None →
  run_middleware (middleware d) c msg s = Ret true s1 →
  writer (mu s1) = false →
  dispatch d c msg s = Ret tt s1 ∧
  readPump_loop d c (Ok msg :: frames) s = readPump_loop d c frames s1.
Proof.
  intros Hnone Hmw Hw.
  assert (dispatch d c msg s = Ret tt s1) as Hd.
  { rewrite (dispatch_passed _ _ _ _ _ Hmw). by apply call_handler_unknown. }
  split; [done |]. by apply readPump_loop_frame.
Qed.

Lemma Unknown_event_is_ignored_witness :
  dispatch ex_typed "a" ex_msg ex_two = Ret tt ex_two ∧
  readPump_loop ex_typed "a" [Ok ex_msg; Ok ex_good_flag] ex_two =
    readPump_loop ex_typed "a" [Ok ex_good_flag] ex_two.
Proof.
  apply (Unknown_event_is_ignored ex_typed "a" ex_msg [Ok ex_good_flag] ex_two ex_two);
    reflexivity.
Defined.

(** C7. When the payload of an event registered with OnTyped fails to decode
    into T (json.Marshal or json.Unmarshal returns an error), the typed
    handler is not invoked: the outcome is the same for every handler
    function.  The error is logged, nothing else changes but the read lock,
    which stays held; the session stays in the registry and the loop goes on
    with the next frame. *)
Theorem Typed_decode_failure_drops_message `{!Marshal} {T : Type} `{!Unmarshal T}
    (d0 : Dispatch) (h : HandlerFunc T) (c : string) (msg : Message)
    (frames : list (result Message)) (e : error) (s s1 : Server) :
  run_middleware (middleware d0) c msg s = Ret true s1 →
  writer (mu s1) = false →
  (json_Marshal (Data msg) = Err e ∨
   ∃ bytes, json_Marshal (Data msg) = Ok bytes ∧ json_Unmarshal (T := T) bytes = Err e) →
  let d := OnTyped d0 (Event msg) h in
  let s2 := log_Printf (LogHandlerError (Event msg) e)
              (set_mu (mkMu (S (readers (mu s1))) false) s1) in
  dispatch d c msg s = Ret tt s2 ∧
  readPump_loop d c (Ok msg :: frames) s = readPump_loop d c frames s2 ∧
  clients s2 = clients s1 ∧ heap s2 = heap s1 ∧ rooms s2 = rooms s1.
Proof.
  intros Hmw Hw Hfail d s2.
  assert (dispatch d c msg s = Ret tt s2) as Hd.
  { rewrite (dispatch_passed d c msg s s1 Hmw).
    apply (call_handler_error d (Handle h)); [apply lookup_insert_eq | done |].
    intros s0. unfold Handle.
    destruct Hfail as [-> | (bytes & -> & ->)]; reflexivity. }
  split_and!; try done. by apply readPump_loop_frame.
Qed.

Lemma Typed_decode_failure_drops_message_witness :
  ∃ s' cl,
    readPump_loop ex_typed "a" [Ok ex_bad_flag; Ok ex_good_flag] ex_two = Ret Reading s' ∧
    "a" ∈ clients s' ∧
    logs s' = logs ex_two ++
                [LogHandlerError "flag"
                   (JsonError "cannot unmarshal into Go value of type bool")] ∧
    heap s' !! "a" = Some cl ∧ buf (send cl) = [mkMessage "reply" ANil].
Proof.
  destruct (Typed_decode_failure_drops_message (T := bool) NewDispatch ex_reply "a"
              ex_bad_flag [Ok ex_good_flag]
              (JsonError "cannot unmarshal into Go value of type bool") ex_two ex_two)
    as (_ & Hloop & _); [reflexivity | reflexivity | |].
  - right. exists "1". split; reflexivity.
  - eexists _, _. split; [etrans; [exact Hloop |]; vm_compute; reflexivity |].
    split_and!; [| reflexivity..]. vm_compute. set_solver.
Defined.

(** ** The hub *)

Lemma run_unregister_absent (d : Dispatch) (c : string) (s : Server) :
  c ∉ clients s →
  mu s = unlocked →
  run_unregister d c s = fire d "disconnect" c (log_Printf (LogDisconnected c) s).
Proof.
  intros Hc Hmu. unfold run_unregister, bind at 1, Lock. rewrite Hmu. simpl.
  unfold bind at 1. simpl. destruct (decide _) as [? | _]; [done |].
  unfold ret, bind, Unlock, modify. simpl. do 2 f_equal.
  destruct s as [cs rs h m l]. simpl in *. by subst.
Qed.

(** C3, as the code has it.  Processing a Deregister request for a session
    that is not in the registry leaves the registry, the room index, every
    queue and the lock as they are, and closes no queue; it still writes the
    log line and fires the disconnect handler, if one is registered. *)
Theorem Second_deregistration_only_logs_and_fires (d : Dispatch) (c : string)
    (s : Server) :
  c ∉ clients s →
  mu s = unlocked →
  ∃ s1,
    clients s1 = clients s ∧ rooms s1 = rooms s ∧ heap s1 = heap s ∧ mu s1 = mu s ∧
    logs s1 = logs s ++ [LogDisconnected c] ∧
    run_unregister d c s = fire d "disconnect" c s1 ∧
    (handlers d !! "disconnect" = None → run_unregister d c s = Ret tt s1).
Proof.
  intros Hc Hmu. exists (log_Printf (LogDisconnected c) s).
  rewrite (run_unregister_absent d c s Hc Hmu). split_and!; try done.
  intros Hnone. unfold fire. by rewrite Hnone.
Qed.

Lemma ex_b_gone_reached :
  run_unregister ex_bye "b" ex_two = Ret tt (log_Printf (LogUser "bye") ex_b_gone).
Proof. vm_compute. reflexivity. Qed.

Lemma Second_deregistration_only_logs_and_fires_witness :
  ∃ s1,
    clients s1 = clients ex_b_gone ∧ rooms s1 = rooms ex_b_gone ∧
    heap s1 = heap ex_b_gone ∧
    run_unregister NewDispatch "b" ex_b_gone = Ret tt s1.
Proof.
  destruct (Second_deregistration_only_logs_and_fires NewDispatch "b" ex_b_gone)
    as (s1 & Hclients & Hrooms & Hheap & _ & _ & _ & Hrun).
  - vm_compute. set_solver.
  - reflexivity.
  - exists s1. split_and!; try done. by apply Hrun.
Defined.

(** C3 as stated fails: deregistering [b] a second time, right after the
    first time, writes the log line and runs the disconnect handler again. *)
Lemma Second_deregistration_fires_disconnect_again :
  ∃ s1 s2,
    run_unregister ex_bye "b" ex_two = Ret tt s1 ∧
    clients s1 = {["a"]} ∧
    run_unregister ex_bye "b" s1 = Ret tt s2 ∧
    logs s2 = logs s1 ++ [LogDisconnected "b"; LogUser "bye"] ∧
    s2 ≠ s1.
Proof.
  eexists _, _. split; [vm_compute; reflexivity |].
  split; [vm_compute; reflexivity |].
  split; [vm_compute; reflexivity |].
  split; [reflexivity |].
  intros Heq. apply (f_equal logs) in Heq. simpl in Heq. discriminate.
Qed.

(** The first deregistration of a session that is still in a room does not
    return: [run] holds the write lock when it calls [leaveRoom], which
    asks for the same lock. *)
Lemma run_unregister_in_a_room_blocks :
  run_unregister NewDispatch "a" ex_lobby = Blocked.
Proof. vm_compute. reflexivity. Qed.

Lemma for_each_ext (keys : list string) (f g : string → M unit) (s : Server) :
  (∀ k s0, f k s0 = g k s0) →
  for_each keys f s = for_each keys g s.
Proof.
  intros Hfg. revert s. induction keys as [| k keys IH]; intros s; [done |].
  simpl. unfold bind. rewrite Hfg. by destruct (g k s).
Qed.

(** The hub's copy of the non-blocking send is the one of [Emit]. *)
Lemma run_broadcast_Emit (message : Message) (s : Server) :
  run_broadcast message s =
  (RLock ;;;
   (fun s0 => for_each (elements (clients s0))
                (fun client => Emit client (Event message) (Data message)) s0) ;;;
   RUnlock) s.
Proof.
  unfold run_broadcast, bind. destruct (RLock s) as [[] s1 | |]; [| done..].
  rewrite (for_each_ext _ _ (fun client => Emit client (Event message) (Data message)));
    [done |].
  intros k s0. unfold Emit, bind. by destruct message.
Qed.

(** What Broadcast does in general: the non-blocking send to every session
    of the registry, whoever called it. *)
Lemma Broadcast_sends_to_the_whole_registry (c event : string) (data : any) (s : Server) :
  is_Some (heap s !! c) →
  writer (mu s) = false →
  (∀ k, k ∈ clients s → live s k) →
  ∃ s',
    Broadcast c event data s = Ret tt s' ∧
    mu s' = mu s ∧ rooms s' = rooms s ∧
    (∀ k cl, k ∈ clients s → heap s !! k = Some cl →
       heap s' !! k = Some (sent (mkMessage event data) cl)) ∧
    (∀ k, k ∉ clients s → heap s' !! k = heap s !! k).
Proof.
  intros [clc Hc] Hw Hlive.
  unfold Broadcast, bind at 1, deref. rewrite Hc.
  unfold bind at 1. rewrite (RLock_free s Hw). set (s1 := set_mu _ s).
  unfold bind at 1. rewrite run_broadcast_Emit.
  unfold bind at 1. rewrite (RLock_free s1 eq_refl). set (s2 := set_mu _ s1).
  unfold bind at 1.
  destruct (for_each_Emit (elements (clients s2)) event data s2)
    as (s3 & Hrun & Hmu & Hrooms & _ & Hout & Hin & _).
  { apply NoDup_elements. }
  { intros k Hk%elem_of_elements. destruct (Hlive k Hk) as (cl & ? & ?). by exists cl. }
  cbv beta. cbn [Event Data]. rewrite Hrun.
  rewrite (RUnlock_after_RLock s1 s3 eq_refl Hmu).
  rewrite (RUnlock_after_RLock s (set_mu (mu s1) s3) Hw eq_refl).
  eexists. split; [done |]. simpl. split_and!; try done.
  - intros k cl Hk Hcl. apply Hin; [by apply elem_of_elements | done].
  - intros k Hk. apply Hout. by intros ?%elem_of_elements.
Qed.

(** C1 fails on the code: the hub sends a broadcast to every session in the
    registry, the sender included.  Here [a] broadcasts and finds the message
    in its own queue as well as in the queue of [b]. *)
Theorem Broadcast_reaches_the_sender_too :
  ∃ s' cla clb,
    Broadcast "a" "ping" (ANumber 1) ex_two = Ret tt s' ∧
    heap s' !! "a" = Some cla ∧ buf (send cla) = [mkMessage "ping" (ANumber 1)] ∧
    heap s' !! "b" = Some clb ∧ buf (send clb) = [mkMessage "ping" (ANumber 1)].
Proof.
  eexists _, _, _. split; [vm_compute; reflexivity |].
  split_and!; reflexivity.
Qed.

(** ** Read errors *)

Lemma readPump_loop_breaks_on_error (d : Dispatch) (c : string) (err : error)
    (frames : list (result Message)) (s : Server) :
  readPump_loop d c (Err err :: frames) s =
    Ret Broke (if IsUnexpectedCloseError err [CloseGoingAway; CloseAbnormalClosure]
               then log_Printf (LogWebSocketError err) s else s).
Proof. simpl. unfold bind. by destruct (IsUnexpectedCloseError _ _). Qed.

(** The copy under [test/] does go on after a read error that is not a
    going-away or abnormal-closure close: it logs and reads the next frame. *)
Lemma readPump_loop'_goes_on (d : Dispatch) (c : string) (n : nat) (err : error)
    (frames : list (result Message)) (s : Server) :
  (∀ code, err = CloseError code → code ≠ 1001%Z ∧ code ≠ 1006%Z) →
  readPump_loop' d c n (Err err :: frames) s =
    readPump_loop' d c n frames (log_Printf (LogReadError err) s).
Proof.
  intros Hcode. simpl. destruct err as [code | what | what]; try done.
  destruct (decide _) as [Hretry | _]; [| done].
  destruct (Hcode code eq_refl). lia.
Qed.

Lemma readPump'_keeps_the_session_on_a_decode_error :
  ∃ s' cl,
    readPump' ex_typed "a" [Err (JsonError "invalid character"); Ok ex_good_flag] ex_two
      = Ret Reading s' ∧
    clients s' = clients ex_two ∧
    logs s' = logs ex_two ++ [LogReadError (JsonError "invalid character")] ∧
    heap s' !! "a" = Some cl ∧
    buf (send cl) = [mkMessage "reply" ANil] ∧ closed (send cl) = false.
Proof.
  eexists _, _. split; [vm_compute; reflexivity |].
  split_and!; reflexivity.
Qed.

(** C2 fails on [readPump] of [client.go]: a frame that does not decode ends
    the loop.  Nothing is logged for it, the frame after it is never read,
    and the deferred function has the hub take the session out of the
    registry and close its queue, then closes the connection. *)
Theorem readPump_ends_the_session_on_a_decode_error :
  ∃ s' cl,
    readPump ex_typed "a" [Err (JsonError "invalid character"); Ok ex_good_flag] ex_two
      = Ret Broke s' ∧
    clients s' = {["b"]} ∧
    logs s' = logs ex_two ++ [LogDisconnected "a"] ∧
    heap s' !! "a" = Some cl ∧
    buf (send cl) = [] ∧ closed (send cl) = true ∧ conn_open cl = false.
Proof.
  eexists _, _. split; [vm_compute; reflexivity |].
  split_and!; reflexivity.
Qed.

(** ** Untyped handlers *)

(** [Handle] does what its steps say: it calls the handler function exactly
    when an invoke step is reached, with the payload of that step, and
    otherwise returns an error without calling it. *)
Lemma Handle_runs_its_steps (MI : Marshal) (T : Type) (UT : Unmarshal T)
    (h : HandlerFunc T) (c : string) (data : any) (s : Server) :
  match last (Handle_steps (T := T) data) with
  | Some (StepInvoke payload) => Handle h c data s = (h c payload ;;; ret None) s
  | _ => ∃ e, Handle h c data s = Ret (Some e) s
  end.
Proof.
  unfold Handle_steps, Handle.
  destruct (json_Marshal data) as [bytes | e]; simpl; [| eauto].
  destruct (json_Unmarshal bytes) as [payload | e]; simpl; eauto.
Qed.





(** The hub's own payload does change on the way: the handler registered
    with On for [disconnect] is handed the empty byte slice by the hub, and
    what it receives is the empty string that slice was written as. *)
Lemma On_handler_does_not_get_the_raw_payload :
  ∃ entry,
    handlers (On NewDispatch "disconnect" ex_kind) !! "disconnect" = Some entry ∧
    entry "b" (ABytes []) ex_two = Ret None (log_Printf (LogUser "string") ex_two) ∧
    (ex_kind "b" (ABytes []) ;;; ret (@None error)) ex_two
      = Ret None (log_Printf (LogUser "bytes") ex_two) ∧
    entry "b" (ABytes []) ex_two ≠ (ex_kind "b" (ABytes []) ;;; ret None) ex_two.
Proof.
  eexists. split; [apply lookup_insert_eq |].
  split_and!; [reflexivity | reflexivity |].
  intros Heq. vm_compute in Heq. discriminate.
Qed.

(** ** Remarks on the lock *)

(** Leave called while the server lock is read-held, as it is around every
    handler [readPump] runs, does not return. *)
Lemma leaveRoom_under_read_lock_blocks (c room : string) (s : Server) :
  0 < readers (mu s) →
  leaveRoom c room s = Blocked.
Proof.
  intros Hr. unfold leaveRoom, bind, Lock.
  destruct (writer (mu s)); [done |].
  destruct (readers (mu s)); [lia | done].
Qed.

(** Whatever the lock state, a room operation that returns leaves the two
    sides of room membership in agreement. *)
Lemma run_op_rooms_agree (op : RoomOp) (s s' : Server) :
  rooms_agree s →
  run_op op s = Ret tt s' →
  rooms_agree s'.
Proof.
  intros Hinv Hrun. destruct op as [c room | c room]; simpl in Hrun.
  - destruct (heap s !! c) as [cl |] eqn:Hc.
    + destruct (rooms_agree_Join s c room cl Hinv Hc) as (s1 & Hrun1 & Hinv1 & _).
      congruence.
    + unfold Join, bind, deref in Hrun. by rewrite Hc in Hrun.
  - unfold Leave in Hrun.
    destruct (mu s) as [[| n] []] eqn:Hmu;
      try (unfold leaveRoom, bind, Lock in Hrun; rewrite Hmu in Hrun; done).
    destruct (heap s !! c) as [cl |] eqn:Hc.
    + destruct (rooms_agree_leaveRoom s c room cl Hinv Hmu Hc)
        as (s1 & Hrun1 & Hinv1 & _).
      congruence.
    + unfold leaveRoom, bind, Lock, deref, modify in Hrun.
      rewrite Hmu in Hrun. simpl in Hrun. by rewrite Hc in Hrun.
Qed.

(** * Further properties of the code *)

(** ** Join and Leave *)

Lemma set_c_rooms_id (cl : Client) (rs : gset string) :
  rs = c_rooms cl → mkClient (send cl) rs (conn_open cl) = cl.
Proof. intros ->. by destruct cl. Qed.

(** X1.  Joining a room twice is joining it once. *)
Theorem Join_idempotent (c room : string) (s : Server) :
  is_Some (heap s !! c) →
  (Join c room ;;; Join c room) s = Join c room s.
Proof.
  intros [cl Hc]. unfold bind at 1. rewrite (Join_spec c room s cl Hc).
  erewrite Join_spec; [| simpl; apply lookup_insert_eq].
  simpl. f_equal. f_equal.
  - rewrite lookup_insert_eq. simpl. rewrite insert_insert_eq. f_equal. set_solver.
  - rewrite insert_insert_eq. f_equal. unfold set_c_rooms. simpl. f_equal. set_solver.
Qed.

Lemma Join_idempotent_witness :
  (Join "a" "lobby" ;;; Join "a" "lobby") ex_two = Join "a" "lobby" ex_two.
Proof. apply Join_idempotent. eexists. reflexivity. Defined.

(** X2.  Leaving a room the session is not in changes nothing, so leaving twice is
    leaving once. *)
Theorem Leave_not_joined_is_noop (c room : string) (s : Server) (cl : Client) :
  rooms_agree s →
  mu s = unlocked →
  heap s !! c = Some cl →
  room ∉ c_rooms cl →
  Leave c room s = Ret tt s.
Proof.
  intros [Hagree Hne] Hmu Hc Hout. unfold Leave.
  rewrite (leaveRoom_spec c room s cl Hmu Hc).
  assert (¬ is_member s c room) as Hnot by (by rewrite <- (Hagree c cl room Hc)).
  destruct s as [cs rms h m l]. simpl in *. subst m. f_equal. f_equal.
  - unfold rooms_without. destruct (rms !! room) as [members |] eqn:Hr; [| done].
    assert (c ∉ members) as Hcm. { intros Hin. apply Hnot. by exists members. }
    assert (members ∖ {[c]} = members) as -> by set_solver.
    destruct (decide _) as [Hsz | _].
    + apply size_empty_inv, leibniz_equiv in Hsz. by destruct (Hne room members Hr).
    + by apply insert_id.
  - apply insert_id. rewrite Hc. f_equal. unfold set_c_rooms.
    symmetry. apply set_c_rooms_id. set_solver.
Qed.

Lemma rooms_agree_ex_three : rooms_agree ex_three.
Proof.
  apply rooms_agree_fresh; [reflexivity |]. unfold ex_three. simpl.
  repeat (apply map_Forall_insert_2; [reflexivity |]). apply map_Forall_empty.
Qed.

Lemma rooms_agree_ex_lobby : rooms_agree ex_lobby.
Proof.
  destruct (run_ops_rooms_agree
              [OpJoin "a" "lobby"; OpJoin "b" "lobby"; OpJoin "x" "lobby";
               OpLeave "x" "lobby"] ex_three)
    as (s' & Hrun & Hinv & _).
  - exact rooms_agree_ex_three.
  - reflexivity.
  - repeat constructor; apply elem_of_dom; eexists; vm_compute; reflexivity.
  - rewrite ex_lobby_reached in Hrun. by injection Hrun as <-.
Qed.

Lemma Leave_not_joined_is_noop_witness :
  Leave "x" "lobby" ex_lobby = Ret tt ex_lobby.
Proof.
  apply (Leave_not_joined_is_noop "x" "lobby" ex_lobby (mkClient make_chan ∅ true)).
  - exact rooms_agree_ex_lobby.
  - reflexivity.
  - reflexivity.
  - set_solver.
Defined.

(** X3.  Joining a room the session was not in and leaving it again gives back
    the state before: the member is gone from the room, the room entry is
    gone if the session was alone in it, and the local set is as it was. *)
Theorem Join_then_Leave_restores (c room : string) (s : Server) (cl : Client) :
  rooms_agree s →
  mu s = unlocked →
  heap s !! c = Some cl →
  room ∉ c_rooms cl →
  (Join c room ;;; Leave c room) s = Ret tt s.
Proof.
  intros [Hagree Hne] Hmu Hc Hout.
  assert (¬ is_member s c room) as Hnot by (by rewrite <- (Hagree c cl room Hc)).
  unfold bind. rewrite (Join_spec c room s cl Hc). unfold Leave.
  erewrite leaveRoom_spec; [| done | simpl; apply lookup_insert_eq].
  destruct s as [cs rms h m l]. simpl in *. subst m. f_equal. f_equal.
  - unfold rooms_without. rewrite lookup_insert_eq.
    destruct (rms !! room) as [members |] eqn:Hr; simpl.
    + assert (c ∉ members) as Hcm. { intros Hin. apply Hnot. by exists members. }
      assert ((members ∪ {[c]}) ∖ {[c]} = members) as -> by set_solver.
      destruct (decide _) as [Hsz | _].
      * apply size_empty_inv, leibniz_equiv in Hsz. by destruct (Hne room members Hr).
      * rewrite insert_insert_eq. by apply insert_id.
    + destruct (decide _) as [_ | Hsz].
      * by apply delete_insert_id.
      * destruct Hsz. change (size ((∅ ∪ {[c]}) ∖ {[c]} : gset string) = 0).
        apply size_empty_iff. set_solver.
  - rewrite insert_insert_eq. apply insert_id. rewrite Hc. f_equal.
    unfold set_c_rooms. simpl. symmetry. apply set_c_rooms_id. set_solver.
Qed.

Lemma Join_then_Leave_restores_witness :
  (Join "x" "lobby" ;;; Leave "x" "lobby") ex_lobby = Ret tt ex_lobby.
Proof.
  apply (Join_then_Leave_restores "x" "lobby" ex_lobby (mkClient make_chan ∅ true)).
  - exact rooms_agree_ex_lobby.
  - reflexivity.
  - reflexivity.
  - set_solver.
Defined.

(** ** Sends to a closed queue *)

Lemma Emit_not_Blocked (c event : string) (data : any) (s : Server) :
  Emit c event data s ≠ Blocked.
Proof.
  unfold Emit, bind, deref. destruct (heap s !! c) as [cl |]; [| done].
  destruct (closed (send cl)); [done |]. by destruct (decide _).
Qed.

Lemma Emit_other (c k event : string) (data : any) (s s' : Server) :
  Emit c event data s = Ret tt s' → k ≠ c →
  heap s' !! k = heap s !! k.
Proof.
  unfold Emit, bind, deref. destruct (heap s !! c) as [cl |]; [| done].
  destruct (closed (send cl)); [done |].
  destruct (decide _); intros [= <-] Hne; simpl; by rewrite lookup_insert_ne.
Qed.

Lemma for_each_Emit_closed_panics (keys : list string) (k event : string) (data : any)
    (s : Server) (cl : Client) :
  k ∈ keys → heap s !! k = Some cl → closed (send cl) = true →
  ∃ why, for_each keys (fun k => Emit k event data) s = Panic why.
Proof.
  revert s. induction keys as [| k' keys IH]; intros s Hk Hcl Hclosed.
  - by apply not_elem_of_nil in Hk.
  - simpl. unfold bind. destruct (decide (k' = k)) as [-> | Hne].
    + rewrite (Emit_closed k event data s cl Hcl Hclosed). eauto.
    + apply elem_of_cons in Hk as [-> | Hk]; [done |].
      destruct (Emit k' event data s) as [[] s1 | why |] eqn:Hstep.
      * apply IH; [done | | done].
        by rewrite (Emit_other k' k event data s s1 Hstep).
      * eauto.
      * by apply Emit_not_Blocked in Hstep.
Qed.

(** X4.  A session shed by Emit cannot be sent to again: the second Emit panics
    on the closed channel. *)
Theorem Emit_after_shed_panics (c event event' : string) (data data' : any) (s : Server)
    (cl : Client) :
  heap s !! c = Some cl →
  closed (send cl) = false →
  ¬ length (buf (send cl)) < send_cap →
  (Emit c event data ;;; Emit c event' data') s = Panic "send on closed channel".
Proof.
  intros Hc Hopen Hfull. unfold bind. rewrite (Emit_open c event data s cl Hc Hopen).
  destruct (decide (has_room cl)) as [Hroom | _]; [done |].
  apply (Emit_closed c event' data' _ (shed cl)); [apply lookup_insert_eq | done].
Qed.

Lemma Emit_after_shed_panics_witness :
  (Emit "b" "ping" (ANumber 1) ;;; Emit "b" "ping" (ANumber 1)) ex_b_full
    = Panic "send on closed channel".
Proof.
  apply (Emit_after_shed_panics "b" "ping" "ping" (ANumber 1) (ANumber 1) ex_b_full
           (mkClient (mkChan (replicate 256 ex_msg) false) ∅ true)).
  - reflexivity.
  - reflexivity.
  - cbn [buf send]. rewrite length_replicate. unfold send_cap. lia.
Defined.

(** BroadcastToRoom panics when a member of the room other than the caller
    has a closed queue. *)
Lemma BroadcastToRoom_panics_on_closed_member (c k room event : string) (data : any)
    (s : Server) (cl : Client) :
  is_Some (heap s !! c) →
  writer (mu s) = false →
  is_member s k room → k ≠ c →
  heap s !! k = Some cl → closed (send cl) = true →
  ∃ why, BroadcastToRoom c room event data s = Panic why.
Proof.
  intros [clc Hc] Hw (members & Hroom & Hk) Hne Hcl Hclosed.
  unfold BroadcastToRoom, bind at 1, deref. rewrite Hc.
  unfold bind at 1. rewrite (RLock_free s Hw). unfold bind at 1.
  cbn [rooms set_mu]. rewrite Hroom, for_each_skip.
  destruct (for_each_Emit_closed_panics
              (filter (fun k => k ≠ c) (elements members)) k event data
              (set_mu (mkMu (S (readers (mu s))) false) s) cl) as [why Hpanic].
  - apply list_elem_of_filter. split; [done | by apply elem_of_elements].
  - done.
  - done.
  - rewrite Hpanic. eauto.
Qed.

(** X5.  Emit sheds a full session from the registry only: it stays a member of
    its rooms, and the next BroadcastToRoom by another session to such a room
    panics. *)
Theorem Shed_member_crashes_room_broadcast (c k room event event' : string)
    (data data' : any) (s : Server) (cl : Client) :
  is_Some (heap s !! c) →
  writer (mu s) = false →
  is_member s k room → k ≠ c →
  heap s !! k = Some cl → closed (send cl) = false →
  ¬ length (buf (send cl)) < send_cap →
  ∃ s1,
    Emit k event data s = Ret tt s1 ∧ (k ∉ clients s1) ∧ is_member s1 k room ∧
    ∃ why, BroadcastToRoom c room event' data' s1 = Panic why.
Proof.
  intros [clc Hc] Hw Hmem Hne Hcl Hopen Hfull.
  rewrite (Emit_open k event data s cl Hcl Hopen).
  destruct (decide (has_room cl)) as [Hroom | _]; [done |].
  eexists. split; [done |]. split_and!.
  - simpl. set_solver.
  - exact Hmem.
  - apply (BroadcastToRoom_panics_on_closed_member c k room event' data' _ (shed cl));
      try done.
    + simpl. rewrite lookup_insert_ne; [eauto | done].
    + simpl. apply lookup_insert_eq.
Qed.

Lemma ex_lobby_b_full_reached :
  for_each (replicate 256 "b") (fun k => Emit k "ping" (ANumber 1)) ex_lobby
    = Ret tt ex_lobby_b_full.
Proof. vm_compute. reflexivity. Qed.

Lemma Shed_member_crashes_room_broadcast_witness :
  ∃ s1,
    Emit "b" "ping" (ANumber 1) ex_lobby_b_full = Ret tt s1 ∧
    ∃ why, BroadcastToRoom "a" "lobby" "ping" (ANumber 1) s1 = Panic why.
Proof.
  destruct (Shed_member_crashes_room_broadcast "a" "b" "lobby" "ping" "ping"
              (ANumber 1) (ANumber 1) ex_lobby_b_full
              (mkClient (mkChan (replicate 256 ex_msg) false) {["lobby"]} true))
    as (s1 & Hemit & _ & _ & Hpanic).
  - eexists. reflexivity.
  - reflexivity.
  - exists {["a"; "b"]}. split; [apply lookup_singleton_eq | set_solver].
  - done.
  - reflexivity.
  - reflexivity.
  - cbn [buf send]. rewrite length_replicate. unfold send_cap. lia.
  - exists s1. split; [exact Hemit | exact Hpanic].
Defined.

(** ** Registered sessions have open queues *)

Lemma bind_Ret_inv {A B} (m : M A) (k : A → M B) (s s' : Server) (b : B) :
  bind m k s = Ret b s' → ∃ a s1, m s = Ret a s1 ∧ k a s1 = Ret b s'.
Proof. unfold bind. destruct (m s) as [a s1 | |]; [eauto | done | done]. Qed.

Lemma Emit_Ret_inv (c event : string) (data : any) (s s' : Server) :
  Emit c event data s = Ret tt s' →
  ∃ cl, heap s !! c = Some cl ∧ closed (send cl) = false.
Proof.
  unfold Emit, bind, deref. destruct (heap s !! c) as [cl |]; [| done].
  destruct (closed (send cl)) eqn:Hcl; [done | eauto].
Qed.

Lemma lock_Ret_inv (op : M unit) (s s' : Server) :
  op = Lock ∨ op = Unlock ∨ op = RLock ∨ op = RUnlock →
  op s = Ret tt s' → ∃ m, s' = set_mu m s.
Proof.
  intros [-> | [-> | [-> | ->]]]; unfold Lock, Unlock, RLock, RUnlock;
    destruct (mu s) as [[| n] []]; simpl; intros [= <-]; eauto.
Qed.

Lemma registry_live_set_mu (m : RWMutex) (s : Server) :
  registry_live (set_mu m s) ↔ registry_live s.
Proof. done. Qed.

Lemma registry_live_Emit (c event : string) (data : any) (s s' : Server) :
  registry_live s → Emit c event data s = Ret tt s' → registry_live s'.
Proof.
  intros Hlive Hrun.
  destruct (Emit_Ret_inv _ _ _ _ _ Hrun) as (cl & Hc & Hopen).
  rewrite (Emit_live c event data s cl Hc Hopen) in Hrun. injection Hrun as <-.
  intros k Hk. simpl in Hk. unfold live. simpl.
  destruct (decide (k = c)) as [-> | Hne].
  - rewrite lookup_insert_eq. eexists. split; [done |]. unfold sent.
    destruct (decide (has_room cl)); [done | set_solver].
  - rewrite lookup_insert_ne by done. apply Hlive.
    destruct (decide (has_room cl)); set_solver.
Qed.

Lemma for_each_preserves (P : Server → Prop) (keys : list string)
    (body : string → M unit) (s s' : Server) :
  (∀ k s0 s1, P s0 → body k s0 = Ret tt s1 → P s1) →
  P s → for_each keys body s = Ret tt s' → P s'.
Proof.
  intros Hbody. revert s. induction keys as [| k keys IH]; intros s HP Hrun.
  - by injection Hrun as <-.
  - simpl in Hrun. apply bind_Ret_inv in Hrun as ([] & s1 & Hstep & Hrest).
    eapply IH; [| exact Hrest]. by eapply Hbody.
Qed.

Lemma registry_live_run_broadcast (message : Message) (s s' : Server) :
  registry_live s → run_broadcast message s = Ret tt s' → registry_live s'.
Proof.
  intros Hlive Hrun. rewrite run_broadcast_Emit in Hrun.
  apply bind_Ret_inv in Hrun as ([] & s1 & Hlock & Hrun).
  apply bind_Ret_inv in Hrun as ([] & s2 & Hloop & Hunlock).
  apply lock_Ret_inv in Hlock as [m1 ->]; [| tauto].
  apply lock_Ret_inv in Hunlock as [m2 ->]; [| tauto].
  apply registry_live_set_mu.
  eapply (for_each_preserves registry_live); [| | exact Hloop].
  - intros k s0 s3. apply registry_live_Emit.
  - by apply registry_live_set_mu.
Qed.

Lemma registry_live_Broadcast (c event : string) (data : any) (s s' : Server) :
  registry_live s → Broadcast c event data s = Ret tt s' → registry_live s'.
Proof.
  intros Hlive Hrun. unfold Broadcast in Hrun.
  apply bind_Ret_inv in Hrun as (cl & s0 & Hderef & Hrun).
  assert (s0 = s) as ->.
  { unfold deref in Hderef. destruct (heap s !! c); [| done]. by injection Hderef. }
  apply bind_Ret_inv in Hrun as ([] & s1 & Hlock & Hrun).
  apply bind_Ret_inv in Hrun as ([] & s2 & Hloop & Hunlock).
  apply lock_Ret_inv in Hlock as [m1 ->]; [| tauto].
  apply lock_Ret_inv in Hunlock as [m2 ->]; [| tauto].
  apply registry_live_set_mu.
  eapply registry_live_run_broadcast; [| exact Hloop]. by apply registry_live_set_mu.
Qed.

Lemma registry_live_BroadcastToRoom (c room event : string) (data : any)
    (s s' : Server) :
  registry_live s → BroadcastToRoom c room event data s = Ret tt s' → registry_live s'.
Proof.
  intros Hlive Hrun. unfold BroadcastToRoom in Hrun.
  apply bind_Ret_inv in Hrun as (cl & s0 & Hderef & Hrun).
  assert (s0 = s) as ->.
  { unfold deref in Hderef. destruct (heap s !! c); [| done]. by injection Hderef. }
  apply bind_Ret_inv in Hrun as ([] & s1 & Hlock & Hrun).
  apply bind_Ret_inv in Hrun as ([] & s2 & Hloop & Hunlock).
  apply lock_Ret_inv in Hlock as [m1 ->]; [| tauto].
  apply lock_Ret_inv in Hunlock as [m2 ->]; [| tauto].
  apply registry_live_set_mu.
  cbn [rooms set_mu] in Hloop.
  destruct (rooms s !! room) as [members |].
  - eapply (for_each_preserves registry_live); [| | exact Hloop].
    + intros k s0 s3 HP. cbv beta. destruct (decide (k ≠ c)).
      * by apply registry_live_Emit.
      * by intros [= <-].
    + by apply registry_live_set_mu.
  - by injection Hloop as <-.
Qed.

Lemma Join_Ret_inv (c room : string) (s s' : Server) :
  Join c room s = Ret tt s' → ∃ cl, heap s !! c = Some cl.
Proof.
  unfold Join, bind, deref. destruct (heap s !! c) as [cl |]; [eauto | done].
Qed.

Lemma leaveRoom_Ret_inv (c room : string) (s s' : Server) :
  leaveRoom c room s = Ret tt s' → mu s = unlocked ∧ ∃ cl, heap s !! c = Some cl.
Proof.
  unfold leaveRoom, bind, Lock, deref, modify.
  destruct (mu s) as [[| n] []] eqn:Hmu; simpl; try done.
  destruct (heap s !! c) as [cl |]; [eauto | done].
Qed.

Lemma registry_live_Join (c room : string) (s s' : Server) :
  registry_live s → Join c room s = Ret tt s' → registry_live s'.
Proof.
  intros Hlive Hrun. destruct (Join_Ret_inv _ _ _ _ Hrun) as [cl Hc].
  rewrite (Join_spec c room s cl Hc) in Hrun. injection Hrun as <-.
  intros k Hk. destruct (Hlive k Hk) as (cl' & Hcl' & Hopen). unfold live. simpl.
  destruct (decide (k = c)) as [-> | Hne].
  - rewrite lookup_insert_eq. eexists. split; [done |]. simpl. congruence.
  - rewrite lookup_insert_ne by done. eauto.
Qed.

Lemma registry_live_leaveRoom (c room : string) (s s' : Server) :
  registry_live s → leaveRoom c room s = Ret tt s' → registry_live s'.
Proof.
  intros Hlive Hrun. destruct (leaveRoom_Ret_inv _ _ _ _ Hrun) as (Hmu & cl & Hc).
  rewrite (leaveRoom_spec c room s cl Hmu Hc) in Hrun. injection Hrun as <-.
  intros k Hk. destruct (Hlive k Hk) as (cl' & Hcl' & Hopen). unfold live. simpl.
  destruct (decide (k = c)) as [-> | Hne].
  - rewrite lookup_insert_eq. eexists. split; [done |]. simpl. congruence.
  - rewrite lookup_insert_ne by done. eauto.
Qed.

(** Under the write lock no [leaveRoom] returns, so the cleanup loop of the
    [unregister] case returns only when there is no room to leave. *)
Lemma for_each_leaveRoom_locked (c : string) (keys : list string) (s s' : Server) :
  writer (mu s) = true →
  for_each keys (fun room => leaveRoom c room) s = Ret tt s' →
  keys = [] ∧ s' = s.
Proof.
  intros Hw. destruct keys as [| room keys]; simpl.
  - by intros [= <-].
  - unfold bind, leaveRoom, bind, Lock. by rewrite Hw.
Qed.

Lemma run_register_spec (d : Dispatch) (c : string) (s : Server) :
  mu s = unlocked →
  run_register d c s =
    fire d "connect" c
      (log_Printf (LogConnected c) (set_clients (fun cs => cs ∪ {[c]}) s)).
Proof.
  intros Hmu. unfold run_register, bind, Lock, Unlock, modify. rewrite Hmu. simpl.
  do 2 f_equal. destruct s as [cs rs h m l]. simpl in *. by subst.
Qed.

Lemma run_register_Ret_inv (d : Dispatch) (c : string) (s s' : Server) :
  run_register d c s = Ret tt s' → mu s = unlocked.
Proof.
  unfold run_register, bind, Lock. by destruct (mu s) as [[| n] []].
Qed.

Lemma run_unregister_Ret_inv (d : Dispatch) (c : string) (s s' : Server) :
  run_unregister d c s = Ret tt s' → mu s = unlocked.
Proof.
  unfold run_unregister, bind, Lock. by destruct (mu s) as [[| n] []].
Qed.

(** The first deregistration: what the hub does for a session that is in the
    registry, has an open queue and is in no room. *)
Lemma run_unregister_present (d : Dispatch) (c : string) (s : Server) (cl : Client) :
  mu s = unlocked →
  c ∈ clients s →
  heap s !! c = Some cl → closed (send cl) = false → c_rooms cl = ∅ →
  run_unregister d c s =
    fire d "disconnect" c
      (log_Printf (LogDisconnected c)
         (set_heap <[c := shed cl]> (set_clients (fun cs => cs ∖ {[c]}) s))).
Proof.
  intros Hmu Hin Hc Hopen Hrooms.
  unfold run_unregister, bind at 1, Lock. rewrite Hmu. simpl.
  unfold bind at 1. simpl. destruct (decide _) as [_ | ?]; [| done].
  unfold bind at 1, modify at 1. unfold bind at 1, close, bind at 1, deref. simpl.
  rewrite Hc, Hopen. unfold modify at 1. unfold bind at 1. simpl.
  rewrite lookup_insert_eq. simpl. rewrite Hrooms, elements_empty. simpl.
  unfold ret, bind, Unlock, modify. simpl. do 2 f_equal.
  destruct s as [cs rs h m l]. simpl in *. by subst.
Qed.

Lemma run_unregister_rooms (d : Dispatch) (c : string) (s : Server) (cl : Client) :
  mu s = unlocked →
  c ∈ clients s →
  heap s !! c = Some cl → closed (send cl) = false →
  run_unregister d c s =
    (for_each (elements (c_rooms cl)) (fun room => leaveRoom c room) ;;;
     Unlock ;;;
     modify (log_Printf (LogDisconnected c)) ;;;
     fire d "disconnect" c)
      (set_mu (mkMu 0 true)
         (set_heap <[c := shed cl]> (set_clients (fun cs => cs ∖ {[c]}) s))).
Proof.
  intros Hmu Hin Hc Hopen.
  unfold run_unregister, bind at 1, Lock. rewrite Hmu. simpl.
  unfold bind at 1. simpl. destruct (decide _) as [_ | ?]; [| done].
  unfold bind at 1, modify at 1. unfold bind at 1, close, bind at 1, deref. simpl.
  rewrite Hc, Hopen. unfold modify at 1. unfold bind at 1. simpl.
  rewrite lookup_insert_eq. simpl. unfold bind at 4. reflexivity.
Qed.

Lemma registry_live_run_unregister (d : Dispatch) (c : string) (s s' : Server) :
  handlers d !! "disconnect" = None →
  registry_live s → run_unregister d c s = Ret tt s' → registry_live s'.
Proof.
  intros Hnone Hlive Hrun. pose proof (run_unregister_Ret_inv _ _ _ _ Hrun) as Hmu.
  destruct (decide (c ∈ clients s)) as [Hin | Hout].
  - destruct (Hlive c Hin) as (cl & Hc & Hopen).
    rewrite (run_unregister_rooms d c s cl Hmu Hin Hc Hopen) in Hrun.
    apply bind_Ret_inv in Hrun as ([] & s1 & Hloop & Hrun).
    apply for_each_leaveRoom_locked in Hloop as [_ ->]; [| done].
    unfold bind, Unlock, modify, fire in Hrun. rewrite Hnone in Hrun. simpl in Hrun.
    injection Hrun as <-. intros k Hk. simpl in Hk.
    apply elem_of_difference in Hk as [Hk Hne%not_elem_of_singleton].
    destruct (Hlive k Hk) as (cl' & Hcl' & Hopen'). exists cl'. simpl.
    by rewrite lookup_insert_ne.
  - rewrite (run_unregister_absent d c s Hout Hmu) in Hrun.
    unfold fire in Hrun. rewrite Hnone in Hrun. by injection Hrun as <-.
Qed.

Lemma registry_live_connect (d : Dispatch) (id : string) (s s' : Server) :
  handlers d !! "connect" = None →
  registry_live s → (new_client id ;;; run_register d id) s = Ret tt s' →
  registry_live s'.
Proof.
  intros Hnone Hlive Hrun. apply bind_Ret_inv in Hrun as ([] & s1 & Hnew & Hrun).
  injection Hnew as <-.
  rewrite run_register_spec in Hrun by (by apply run_register_Ret_inv in Hrun).
  unfold fire in Hrun. rewrite Hnone in Hrun. injection Hrun as <-.
  intros k Hk. simpl in Hk. unfold live. simpl.
  destruct (decide (k = id)) as [-> | Hne].
  - rewrite lookup_insert_eq. eauto.
  - rewrite lookup_insert_ne by done. apply Hlive. set_solver.
Qed.

(** X6.  Whatever the hub and the sessions do, in whatever order, every session
    in the registry has an open outbound queue (for a dispatch table with no
    connect or disconnect handler, which could do anything). *)
Theorem Registered_sessions_have_open_queues (d : Dispatch) (acts : list Action)
    (s s' : Server) :
  handlers d !! "connect" = None →
  handlers d !! "disconnect" = None →
  registry_live s →
  run_actions d acts s = Ret tt s' →
  registry_live s'.
Proof.
  intros Hconnect Hdisconnect. revert s.
  induction acts as [| a acts IH]; intros s Hlive Hrun.
  - by injection Hrun as <-.
  - simpl in Hrun. apply bind_Ret_inv in Hrun as ([] & s1 & Hstep & Hrest).
    apply (IH s1); [| done].
    destruct a; simpl in Hstep.
    + by apply (registry_live_connect d id s).
    + by apply (registry_live_run_unregister d c s).
    + by apply (registry_live_Emit c event data s).
    + by apply (registry_live_Join c room s).
    + by apply (registry_live_leaveRoom c room s).
    + by apply (registry_live_Broadcast c event data s).
    + by apply (registry_live_BroadcastToRoom c room event data s).
Qed.

Lemma Registered_sessions_have_open_queues_witness :
  ∃ s', run_actions NewDispatch ex_acts NewServer = Ret tt s' ∧ registry_live s'.
Proof.
  eexists. split; [vm_compute; reflexivity |].
  eapply (Registered_sessions_have_open_queues NewDispatch ex_acts NewServer).
  - reflexivity.
  - reflexivity.
  - intros k Hk. by apply not_elem_of_empty in Hk.
  - vm_compute. reflexivity.
Defined.




(** A connect handler that broadcasts stops the hub: the handler runs on
    the hub's goroutine, where the send on the broadcast channel has no
    receiver. *)
Lemma Broadcast_in_a_connect_handler_blocks (MI : Marshal) (UI : Unmarshal any)
    (d0 : Dispatch) (event : string) (data : any) (c : string) (s : Server)
    (bytes : string) (payload : any) :
  json_Marshal (ABytes []) = Ok bytes →
  json_Unmarshal bytes = Ok payload →
  mu s = unlocked →
  is_Some (heap s !! c) →
  run_register
    (@On MI UI d0 "connect" (fun client _ => Broadcast_from OnHub client event data)) c s
    = Blocked.
Proof.
  intros Hm Hu Hmu [cl Hc]. rewrite run_register_spec by done.
  unfold fire, On. cbn [handlers]. rewrite lookup_insert_eq.
  unfold Handle, bind at 1. rewrite Hm, Hu.
  unfold bind at 1, Broadcast_from, bind at 1, deref. simpl. rewrite Hc.
  unfold bind, RLock, blocked. simpl. by rewrite Hmu.
Qed.

(** ** The hub's register and unregister cases *)

(** X8.  Deregistering a registered session that is still in a room never
    returns: the hub holds the write lock when its cleanup loop calls
    leaveRoom, which asks for the same lock. *)
Theorem Deregistration_of_a_room_member_blocks (d : Dispatch) (c : string) (s : Server)
    (cl : Client) :
  mu s = unlocked →
  c ∈ clients s →
  heap s !! c = Some cl → closed (send cl) = false →
  c_rooms cl ≠ ∅ →
  run_unregister d c s = Blocked.
Proof.
  intros Hmu Hin Hc Hopen Hrooms.
  rewrite (run_unregister_rooms d c s cl Hmu Hin Hc Hopen).
  destruct (elements (c_rooms cl)) as [| room rest] eqn:Hel.
  - apply elements_empty_inv, leibniz_equiv in Hel. done.
  - reflexivity.
Qed.

Lemma Deregistration_of_a_room_member_blocks_witness :
  run_unregister ex_bye "a" ex_lobby = Blocked.
Proof.
  apply (Deregistration_of_a_room_member_blocks ex_bye "a" ex_lobby
           (mkClient make_chan {["lobby"]} true)).
  - reflexivity.
  - set_solver.
  - reflexivity.
  - reflexivity.
  - set_solver.
Defined.

(** X9.  A disconnect handler registered with On that emits to the departing
    session panics: the hub closes the queue before it fires the handler. *)
Theorem Emit_in_disconnect_handler_panics (MI : Marshal) (UI : Unmarshal any)
    (d0 : Dispatch) (event : string) (data : any) (c : string) (s : Server) (cl : Client)
    (bytes : string) (payload : any) :
  json_Marshal (ABytes []) = Ok bytes →
  json_Unmarshal bytes = Ok payload →
  mu s = unlocked →
  c ∈ clients s →
  heap s !! c = Some cl → closed (send cl) = false → c_rooms cl = ∅ →
  run_unregister (@On MI UI d0 "disconnect" (fun client _ => Emit client event data)) c s
    = Panic "send on closed channel".
Proof.
  intros Hm Hu Hmu Hin Hc Hopen Hrooms.
  rewrite (run_unregister_present _ c s cl Hmu Hin Hc Hopen Hrooms).
  unfold fire, On. cbn [handlers]. rewrite lookup_insert_eq.
  unfold Handle, bind. rewrite Hm, Hu.
  erewrite Emit_closed; [done | simpl; apply lookup_insert_eq | done].
Qed.

Lemma Emit_in_disconnect_handler_panics_witness :
  run_unregister (On NewDispatch "disconnect" (fun client _ => Emit client "bye" ANil))
    "b" ex_two = Panic "send on closed channel".
Proof.
  apply (Emit_in_disconnect_handler_panics ex_Marshal ex_Unmarshal_any NewDispatch
           "bye" ANil "b" ex_two (mkClient make_chan ∅ true) two_quotes
           (AString EmptyString)); reflexivity.
Defined.

(** X10.  A typed connect handler whose payload type does not accept what the hub
    passes (the empty byte slice, written to JSON) never runs, and nobody
    hears of it: the session is admitted and only the admission is logged. *)
Theorem Connect_decode_failure_is_silent (MI : Marshal) (T : Type) (UT : Unmarshal T)
    (d0 : Dispatch) (h : HandlerFunc T) (c : string) (s : Server) (e : error) :
  (json_Marshal (ABytes []) = Err e ∨
   ∃ bytes, json_Marshal (ABytes []) = Ok bytes ∧ json_Unmarshal (T := T) bytes = Err e) →
  mu s = unlocked →
  run_register (@OnTyped MI T UT d0 "connect" h) c s =
    Ret tt (log_Printf (LogConnected c) (set_clients (fun cs => cs ∪ {[c]}) s)).
Proof.
  intros Hfail Hmu. rewrite run_register_spec by done.
  unfold fire, OnTyped. cbn [handlers]. rewrite lookup_insert_eq.
  unfold Handle, bind. by destruct Hfail as [-> | (bytes & -> & ->)].
Qed.

Lemma Connect_decode_failure_is_silent_witness :
  run_register (OnTyped (T := TEST) NewDispatch "connect" ex_reply) "a" NewServer =
    Ret tt (log_Printf (LogConnected "a")
              (set_clients (fun cs => cs ∪ {["a"]}) NewServer)).
Proof.
  apply (Connect_decode_failure_is_silent ex_Marshal TEST ex_Unmarshal_TEST NewDispatch
           ex_reply "a" NewServer
           (JsonError "cannot unmarshal into Go value of type TEST")).
  - right. exists two_quotes. split; reflexivity.
  - reflexivity.
Defined.

(** ** The read lock around handlers *)

Lemma Lock_read_held (s : Server) : 0 < readers (mu s) → Lock s = Blocked.
Proof.
  intros Hr. unfold Lock. destruct (writer (mu s)); [done |].
  destruct (readers (mu s)); [lia | done].
Qed.

(** X11.  One typed payload that fails to decode is enough to stop the hub: the
    loop goes on with the read lock still held, so from then on no session
    can be registered or deregistered, no Leave returns, and the teardown of
    this very session blocks when its stream ends. *)
Theorem Decode_failure_blocks_the_hub (MI : Marshal) (T : Type) (UT : Unmarshal T)
    (d0 : Dispatch) (h : HandlerFunc T) (c : string) (msg : Message) (e : error)
    (s s1 : Server) :
  run_middleware (middleware d0) c msg s = Ret true s1 →
  mu s1 = unlocked →
  (json_Marshal (Data msg) = Err e ∨
   ∃ bytes, json_Marshal (Data msg) = Ok bytes ∧ json_Unmarshal (T := T) bytes = Err e) →
  let d := @OnTyped MI T UT d0 (Event msg) h in
  ∃ s2,
    dispatch d c msg s = Ret tt s2 ∧
    mu s2 = mkMu 1 false ∧
    (∀ d' c', run_register d' c' s2 = Blocked ∧ run_unregister d' c' s2 = Blocked) ∧
    (∀ c' room, Leave c' room s2 = Blocked) ∧
    (∀ err frames, readPump d c (Ok msg :: Err err :: frames) s = Blocked).
Proof.
  intros Hmw Hmu Hfail d.
  assert (writer (mu s1) = false) as Hw by (by rewrite Hmu).
  assert (dispatch d c msg s =
            Ret tt (log_Printf (LogHandlerError (Event msg) e)
                      (set_mu (mkMu (S (readers (mu s1))) false) s1))) as Hd.
  { rewrite (dispatch_passed d c msg s s1 Hmw).
    apply (call_handler_error d (Handle h)); [apply lookup_insert_eq | done |].
    intros s0. unfold Handle.
    destruct Hfail as [-> | (bytes & -> & ->)]; reflexivity. }
  eexists. split; [exact Hd |]. rewrite Hmu. simpl. split_and!.
  - reflexivity.
  - intros d' c'. split.
    + unfold run_register, bind. by rewrite Lock_read_held by (simpl; lia).
    + unfold run_unregister, bind. by rewrite Lock_read_held by (simpl; lia).
  - intros c' room. apply leaveRoom_under_read_lock_blocks. simpl. lia.
  - intros err frames. unfold readPump. unfold bind at 1.
    rewrite (readPump_loop_frame d c msg _ s _ Hd), readPump_loop_breaks_on_error.
    unfold bind at 1, readPump_deferred, bind at 1, run_unregister, bind at 1.
    rewrite Lock_read_held; [done |].
    rewrite Hmu. destruct (IsUnexpectedCloseError _ _); simpl; lia.
Qed.

Lemma Decode_failure_blocks_the_hub_witness :
  ∃ s2,
    dispatch ex_typed "a" ex_bad_flag ex_two = Ret tt s2 ∧
    run_register NewDispatch "x" s2 = Blocked ∧
    readPump ex_typed "a" [Ok ex_bad_flag; Err (CloseError 1000)] ex_two = Blocked.
Proof.
  destruct (Decode_failure_blocks_the_hub ex_Marshal bool ex_Unmarshal_bool NewDispatch
              ex_reply "a" ex_bad_flag
              (JsonError "cannot unmarshal into Go value of type bool") ex_two ex_two)
    as (s2 & Hd & _ & Hhub & _ & Hpump); [reflexivity | reflexivity | |].
  - right. exists "1". split; reflexivity.
  - exists s2. split; [exact Hd |]. split; [apply Hhub | apply Hpump].
Defined.

(** X12.  A handler that calls Leave never returns: the loop holds the read lock
    around the handler and leaveRoom asks for the write lock. *)
Theorem Leave_inside_a_handler_blocks (MI : Marshal) (UI : Unmarshal any)
    (d0 : Dispatch) (room c : string) (msg : Message) (bytes : string) (payload : any)
    (frames : list (result Message)) (s s1 : Server) :
  run_middleware (middleware d0) c msg s = Ret true s1 →
  writer (mu s1) = false →
  json_Marshal (Data msg) = Ok bytes →
  json_Unmarshal bytes = Ok payload →
  let d := @On MI UI d0 (Event msg) (fun client _ => Leave client room) in
  dispatch d c msg s = Blocked ∧
  readPump d c (Ok msg :: frames) s = Blocked.
Proof.
  intros Hmw Hw Hm Hu d.
  assert (dispatch d c msg s = Blocked) as Hd.
  { rewrite (dispatch_passed d c msg s s1 Hmw).
    unfold call_handler, bind at 1. rewrite (RLock_free s1 Hw).
    unfold d, On. cbn [handlers]. rewrite lookup_insert_eq.
    unfold bind at 1, Handle. rewrite Hm, Hu. unfold bind at 1, Leave.
    rewrite leaveRoom_under_read_lock_blocks; [done | simpl; lia]. }
  split; [exact Hd |]. unfold readPump, bind at 1. simpl. unfold bind at 1.
  by rewrite Hd.
Qed.

Lemma Leave_inside_a_handler_blocks_witness :
  dispatch (On NewDispatch "flag" (fun client _ => Leave client "lobby")) "a"
    ex_good_flag ex_lobby = Blocked.
Proof.
  apply (Leave_inside_a_handler_blocks ex_Marshal ex_Unmarshal_any NewDispatch "lobby"
           "a" ex_good_flag "true" (ABool true) [] ex_lobby ex_lobby); reflexivity.
Defined.

(** X13.  A handler that calls Join does what Join does, and the read lock is
    released after it. *)
Theorem Join_inside_a_handler (MI : Marshal) (UI : Unmarshal any)
    (d0 : Dispatch) (room c : string) (msg : Message) (bytes : string) (payload : any)
    (s s1 : Server) :
  run_middleware (middleware d0) c msg s = Ret true s1 →
  writer (mu s1) = false →
  is_Some (heap s1 !! c) →
  json_Marshal (Data msg) = Ok bytes →
  json_Unmarshal bytes = Ok payload →
  dispatch (@On MI UI d0 (Event msg) (fun client _ => Join client room)) c msg s
    = Join c room s1.
Proof.
  intros Hmw Hw [cl Hc] Hm Hu.
  rewrite (dispatch_passed (@On MI UI d0 (Event msg) (fun client _ => Join client room))
             c msg s s1 Hmw).
  unfold call_handler, bind at 1. rewrite (RLock_free s1 Hw).
  unfold On. cbn [handlers]. rewrite lookup_insert_eq.
  unfold bind at 1, Handle. rewrite Hm, Hu. unfold bind at 1.
  erewrite Join_spec; [| exact Hc]. cbn [ret].
  rewrite (Join_spec c room s1 cl Hc). unfold RUnlock. simpl. do 2 f_equal.
  destruct (mu s1) as [n w]. simpl in *. by subst.
Qed.

Lemma Join_inside_a_handler_witness :
  dispatch (On NewDispatch "flag" (fun client _ => Join client "lobby")) "x"
    ex_good_flag ex_lobby = Join "x" "lobby" ex_lobby.
Proof.
  apply (Join_inside_a_handler ex_Marshal ex_Unmarshal_any NewDispatch "lobby"
           "x" ex_good_flag "true" (ABool true) ex_lobby ex_lobby); try reflexivity.
  eexists. reflexivity.
Defined.

(** ** The outbound loop *)

Lemma set_buf_set_buf (p q : list Message) (cl : Client) :
  set_buf p (set_buf q cl) = set_buf p cl.
Proof. done. Qed.

Lemma writePump_loop_all_written (c : string) (pending : list Message)
    (more : list (option error)) (s : Server) (cl : Client) :
  heap s !! c = Some cl →
  writePump_loop c pending (replicate (length pending) None ++ more) s =
    Ret (map (WriteJSON ∘ response) pending ++
           (if closed (send cl) then [WriteMessage CloseMessage []] else []),
         if closed (send cl) then QueueClosed else Receiving)
        (match pending with
         | [] => s
         | _ :: _ => set_heap <[c := set_buf [] cl]> s
         end).
Proof.
  revert s cl. induction pending as [| message pending IH]; intros s cl Hc.
  - simpl. unfold bind, deref. rewrite Hc. by destruct (closed (send cl)).
  - cbn [writePump_loop length replicate app]. unfold bind at 1, deref. rewrite Hc.
    unfold bind at 1, modify. unfold bind at 1.
    rewrite (IH _ (set_buf pending cl)); [| simpl; apply lookup_insert_eq].
    cbn [ret fst snd map app]. f_equal.
    destruct pending as [| m pending]; [done |].
    unfold set_heap. simpl. by rewrite insert_insert_eq.
Qed.

Lemma writePump_all_written (c : string) (more : list (option error))
    (s : Server) (cl : Client) :
  heap s !! c = Some cl →
  writePump c (replicate (length (buf (send cl))) None ++ more) s =
    Ret (map (WriteJSON ∘ response) (buf (send cl)) ++
           (if closed (send cl) then [WriteMessage CloseMessage []] else []),
         if closed (send cl) then QueueClosed else Receiving)
        (set_heap
           <[c := mkClient (mkChan [] (closed (send cl))) (c_rooms cl)
                    (if closed (send cl) then false else conn_open cl)]> s).
Proof.
  intros Hc. unfold writePump, bind at 1, deref at 1. rewrite Hc.
  unfold bind at 1. rewrite (writePump_loop_all_written c _ more s cl Hc).
  destruct cl as [[pending cld] rs op]. cbn [send buf closed c_rooms conn_open snd] in *.
  destruct pending as [| m pending], cld; cbn [snd].
  - unfold bind, deref, modify, ret. rewrite Hc. reflexivity.
  - unfold ret. do 2 f_equal. destruct s as [cs rms h mm l].
    unfold set_heap. simpl in *. f_equal. symmetry. by apply insert_id.
  - unfold bind, deref, modify, ret. simpl. rewrite lookup_insert_eq.
    unfold set_heap. simpl. by rewrite insert_insert_eq.
  - reflexivity.
Qed.

(** X14.  With a stream that takes every write, writePump hands the queued
    messages to the connection in the order they were enqueued, each as an
    object with the fields event and data, and leaves the queue empty.  If
    the queue was closed it then sends a close frame and closes the
    connection; otherwise it waits for more, the connection open. *)
Theorem writePump_delivers_in_enqueue_order (c : string) (more : list (option error))
    (s : Server) (cl : Client) :
  heap s !! c = Some cl →
  ∃ s' cl',
    writePump c (replicate (length (buf (send cl))) None ++ more) s =
      Ret (map (WriteJSON ∘ response) (buf (send cl)) ++
             (if closed (send cl) then [WriteMessage CloseMessage []] else []),
           if closed (send cl) then QueueClosed else Receiving) s' ∧
    heap s' !! c = Some cl' ∧
    buf (send cl') = [] ∧ closed (send cl') = closed (send cl) ∧
    conn_open cl' = (if closed (send cl) then false else conn_open cl) ∧
    c_rooms cl' = c_rooms cl ∧
    clients s' = clients s ∧ rooms s' = rooms s ∧ logs s' = logs s ∧
    (∀ k, k ≠ c → heap s' !! k = heap s !! k).
Proof.
  intros Hc. eexists _, _. split; [by apply writePump_all_written |].
  simpl. rewrite lookup_insert_eq. split_and!; try done.
  intros k Hne. by rewrite lookup_insert_ne.
Qed.

Lemma writePump_loop_failure (c : string) (before after : list Message)
    (message : Message) (err : error) (more : list (option error)) (s : Server)
    (cl : Client) :
  heap s !! c = Some cl →
  writePump_loop c (before ++ message :: after)
    (replicate (length before) None ++ Some err :: more) s =
    Ret (map (WriteJSON ∘ response) (before ++ [message]), WriteFailed err)
        (log_Printf (LogUser "WebSocket write error")
           (set_heap <[c := set_buf after cl]> s)).
Proof.
  revert s cl. induction before as [| m before IH]; intros s cl Hc.
  - simpl. unfold bind, deref, modify. by rewrite Hc.
  - cbn [writePump_loop length replicate app]. unfold bind at 1, deref. rewrite Hc.
    unfold bind at 1, modify. unfold bind at 1.
    rewrite (IH _ (set_buf (before ++ message :: after) cl));
      [| simpl; apply lookup_insert_eq].
    cbn [ret fst snd map app]. f_equal. unfold set_heap, log_Printf. simpl.
    by rewrite insert_insert_eq.
Qed.

(** X15.  When a write fails, writePump logs, closes the connection and returns.
    The message whose write failed is gone from the queue, the ones behind it
    stay there unsent, and the session stays in the registry and in its
    rooms: nothing tells the hub. *)
Theorem writePump_stops_at_the_first_failed_write (c : string)
    (before after : list Message) (message : Message) (err : error)
    (more : list (option error)) (s : Server) (cl : Client) :
  heap s !! c = Some cl →
  buf (send cl) = before ++ message :: after →
  writePump c (replicate (length before) None ++ Some err :: more) s =
    Ret (map (WriteJSON ∘ response) (before ++ [message]), WriteFailed err)
        (mkServer (clients s) (rooms s)
           (<[c := mkClient (mkChan after (closed (send cl))) (c_rooms cl) false]> (heap s))
           (mu s) (logs s ++ [LogUser "WebSocket write error"])).
Proof.
  intros Hc Hbuf. unfold writePump, bind at 1, deref at 1. rewrite Hc.
  unfold bind at 1. rewrite Hbuf.
  rewrite (writePump_loop_failure c before after message err more s cl Hc).
  cbn [snd]. unfold bind, deref, modify, ret. simpl. rewrite lookup_insert_eq.
  unfold set_heap. simpl. by rewrite insert_insert_eq.
Qed.

Lemma ex_a_waiting_reached :
  Emit_each "a" [ex_msg; ex_good_flag] ex_two = Ret tt ex_a_waiting.
Proof. vm_compute. reflexivity. Qed.

Lemma writePump_delivers_in_enqueue_order_witness :
  ∃ s',
    writePump "a" [None; None; None] ex_a_waiting =
      Ret ([WriteJSON (response ex_msg); WriteJSON (response ex_good_flag)], Receiving) s'.
Proof.
  destruct (writePump_delivers_in_enqueue_order "a" [None] ex_a_waiting
              (mkClient (mkChan [ex_msg; ex_good_flag] false) ∅ true))
    as (s' & cl' & Hrun & _); [reflexivity |].
  exists s'. exact Hrun.
Defined.

Lemma writePump_stops_at_the_first_failed_write_witness :
  ∃ s' cl,
    writePump "a" [Some (OtherError "broken pipe"); None] ex_a_waiting =
      Ret ([WriteJSON (response ex_msg)], WriteFailed (OtherError "broken pipe")) s' ∧
    clients s' = clients ex_a_waiting ∧
    heap s' !! "a" = Some cl ∧ buf (send cl) = [ex_good_flag] ∧ conn_open cl = false.
Proof.
  eexists _, _. split.
  - apply (writePump_stops_at_the_first_failed_write "a" [] [ex_good_flag] ex_msg
             (OtherError "broken pipe") [None] ex_a_waiting
             (mkClient (mkChan [ex_msg; ex_good_flag] false) ∅ true)); reflexivity.
  - split_and!; reflexivity.
Defined.

Lemma Emit_each_enqueues (c : string) (messages : list Message) (s : Server)
    (cl : Client) :
  heap s !! c = Some cl →
  closed (send cl) = false →
  (length (buf (send cl)) + length messages ≤ send_cap)%nat →
  ∃ s',
    Emit_each c messages s = Ret tt s' ∧
    heap s' !! c = Some (set_buf (buf (send cl) ++ messages) cl) ∧
    (∀ k, k ≠ c → heap s' !! k = heap s !! k) ∧
    clients s' = clients s ∧ rooms s' = rooms s ∧ mu s' = mu s ∧ logs s' = logs s.
Proof.
  revert s cl. induction messages as [| message messages IH]; intros s cl Hc Hopen Hlen.
  - exists s. split; [done |]. rewrite Hc, app_nil_r. split_and!; try done.
    f_equal. destruct cl as [[b cld] rs op]. done.
  - simpl in Hlen. simpl. unfold bind.
    rewrite (Emit_open c _ _ s cl Hc Hopen).
    destruct (decide (has_room cl)) as [_ | Hfull]; [| unfold has_room in Hfull; lia].
    destruct (IH (set_heap <[c := enqueued (mkMessage (Event message) (Data message)) cl]> s)
                (enqueued (mkMessage (Event message) (Data message)) cl))
      as (s' & Hrun & Hc' & Hother & Hrest).
    + simpl. apply lookup_insert_eq.
    + done.
    + simpl. rewrite length_app. simpl. lia.
    + exists s'. split; [done |]. split_and!; try apply Hrest.
      * rewrite Hc'. f_equal. unfold set_buf, enqueued, set_send. simpl.
        destruct message. by rewrite <- app_assoc.
      * intros k Hne. rewrite (Hother k Hne). simpl. by rewrite lookup_insert_ne.
Qed.

Lemma drained_state (c : string) (pending : list Message) (s : Server) (cl : Client) :
  heap s !! c = Some (set_buf pending cl) →
  let s' := match pending with
            | [] => s
            | _ :: _ => set_heap <[c := set_buf [] (set_buf pending cl)]> s
            end in
  heap s' !! c = Some (set_buf [] cl) ∧ clients s' = clients s ∧ rooms s' = rooms s.
Proof.
  intros Hc. destruct pending as [| m pending]; simpl.
  - by rewrite Hc.
  - by rewrite lookup_insert_eq.
Qed.

(** X16.  What is emitted to a session comes out of its writePump in the same
    order: messages emitted while the queue has room, followed by a run of
    writePump on a stream that takes every write, are handed to the
    connection after the ones already queued, first emitted first. *)
Theorem Emitted_messages_are_written_in_order (c : string) (messages : list Message)
    (more : list (option error)) (s : Server) (cl : Client) :
  heap s !! c = Some cl →
  closed (send cl) = false →
  (length (buf (send cl)) + length messages ≤ send_cap)%nat →
  ∃ s',
    (Emit_each c messages ;;;
     writePump c
       (replicate (length (buf (send cl)) + length messages)%nat None ++ more)) s
      = Ret (map (WriteJSON ∘ response) (buf (send cl) ++ messages), Receiving) s' ∧
    heap s' !! c = Some (set_buf [] cl) ∧
    clients s' = clients s ∧ rooms s' = rooms s.
Proof.
  intros Hc Hopen Hlen.
  destruct (Emit_each_enqueues c messages s cl Hc Hopen Hlen)
    as (s1 & Hrun & Hc1 & _ & Hclients & Hrooms & _).
  unfold bind at 1. rewrite Hrun.
  pose proof (writePump_loop_all_written c (buf (send cl) ++ messages) more s1 _ Hc1)
    as Hloop.
  rewrite length_app in Hloop.
  unfold writePump, bind at 1, deref at 1. rewrite Hc1. unfold bind at 1.
  cbn [set_buf set_send send buf closed] in *.
  rewrite Hloop, Hopen. cbn [snd]. rewrite app_nil_r.
  eexists. split; [reflexivity |].
  destruct (drained_state c (buf (send cl) ++ messages) s1 cl Hc1) as (Hh & Hcs & Hrs).
  split_and!; [exact Hh | by rewrite Hcs | by rewrite Hrs].
Qed.

Lemma Emitted_messages_are_written_in_order_witness :
  ∃ s',
    (Emit_each "a" [ex_msg; ex_good_flag] ;;; writePump "a" [None; None; None]) ex_two
      = Ret ([WriteJSON (response ex_msg); WriteJSON (response ex_good_flag)], Receiving) s'.
Proof.
  destruct (Emitted_messages_are_written_in_order "a" [ex_msg; ex_good_flag] [None]
              ex_two (mkClient make_chan ∅ true))
    as (s' & Hrun & _); [reflexivity | reflexivity | simpl; unfold send_cap; lia |].
  exists s'. exact Hrun.
Defined.

(** ** The end of a session *)

Lemma IsUnexpectedCloseError_spec (err : error) :
  IsUnexpectedCloseError err [CloseGoingAway; CloseAbnormalClosure] = true ↔
  ∃ code, err = CloseError code ∧ code ≠ 1001%Z ∧ code ≠ 1006%Z.
Proof.
  unfold IsUnexpectedCloseError, CloseGoingAway, CloseAbnormalClosure.
  destruct err as [code | what | what]; simpl.
  - rewrite negb_true_iff, bool_decide_eq_false. split.
    + intros Hnot. exists code. split; [done |].
      split; intros ->; apply Hnot; set_solver.
    + intros (code' & [= <-] & H1 & H2). set_solver.
  - split; [done | by intros (? & ? & _)].
  - split; [done | by intros (? & ? & _)].
Qed.

(** X17.  A read error ends the session.  For a registered session in no room,
    with no disconnect handler: readPump logs the error only if it is a close
    error whose code is neither 1001 nor 1006 (no other error is logged), no
    later frame is read, the hub takes the session out of the registry and
    closes its queue, what was queued staying in it, and the connection is
    closed. *)
Theorem Read_error_tears_down_the_session (d : Dispatch) (c : string)
    (err : error) (frames : list (result Message)) (s : Server) (cl : Client) :
  handlers d !! "disconnect" = None →
  mu s = unlocked →
  c ∈ clients s →
  heap s !! c = Some cl → closed (send cl) = false → c_rooms cl = ∅ →
  ∃ s1 logged,
    readPump d c (Err err :: frames) s = Ret Broke s1 ∧
    clients s1 = clients s ∖ {[c]} ∧ rooms s1 = rooms s ∧ mu s1 = unlocked ∧
    heap s1 !! c = Some (mkClient (mkChan (buf (send cl)) true) ∅ false) ∧
    (∀ k, k ≠ c → heap s1 !! k = heap s !! k) ∧
    logs s1 = logs s ++ logged ++ [LogDisconnected c] ∧
    ((∃ code, err = CloseError code ∧ code ≠ 1001%Z ∧ code ≠ 1006%Z) →
       logged = [LogWebSocketError err]) ∧
    (¬ (∃ code, err = CloseError code ∧ code ≠ 1001%Z ∧ code ≠ 1006%Z) →
       logged = []).
Proof.
  intros Hnone Hmu Hin Hc Hopen Hrooms.
  set (s0 := if IsUnexpectedCloseError err [CloseGoingAway; CloseAbnormalClosure]
             then log_Printf (LogWebSocketError err) s else s).
  assert (mu s0 = unlocked ∧ clients s0 = clients s ∧ heap s0 = heap s ∧
          rooms s0 = rooms s ∧
          logs s0 = logs s ++
            (if IsUnexpectedCloseError err [CloseGoingAway; CloseAbnormalClosure]
             then [LogWebSocketError err] else [])) as (Hmu0 & Hcs0 & Hh0 & Hr0 & Hl0).
  { unfold s0. destruct (IsUnexpectedCloseError _ _); simpl; rewrite ?app_nil_r; done. }
  assert (readPump d c (Err err :: frames) s =
            Ret Broke
              (set_heap <[c := close_conn (shed cl)]>
                 (log_Printf (LogDisconnected c)
                    (set_heap <[c := shed cl]>
                       (set_clients (fun cs => cs ∖ {[c]}) s0))))) as Hpump.
  { unfold readPump, bind at 1. rewrite readPump_loop_breaks_on_error. fold s0.
    unfold bind at 1, readPump_deferred, bind at 1.
    rewrite (run_unregister_present d c s0 cl); [| done | by rewrite Hcs0
                                                 | by rewrite Hh0 | done | done].
    unfold fire. rewrite Hnone. unfold ret, bind, deref, modify. simpl.
    by rewrite lookup_insert_eq. }
  eexists _, (if IsUnexpectedCloseError err [CloseGoingAway; CloseAbnormalClosure]
              then [LogWebSocketError err] else []).
  split; [exact Hpump |]. simpl.
  rewrite lookup_insert_eq, Hcs0, Hr0, Hmu0, Hl0.
  split_and!; try done.
  - unfold close_conn, shed, set_send. simpl. by rewrite Hrooms.
  - intros k Hne. rewrite !lookup_insert_ne by done. by rewrite Hh0.
  - by rewrite <- app_assoc.
  - intros Hclose. apply IsUnexpectedCloseError_spec in Hclose. by rewrite Hclose.
  - intros Hno. destruct (IsUnexpectedCloseError _ _) eqn:Hu; [| done].
    apply IsUnexpectedCloseError_spec in Hu. done.
Qed.

Lemma Read_error_tears_down_the_session_witness :
  ∃ s1,
    readPump NewDispatch "a" [Err (JsonError "invalid character"); Ok ex_good_flag]
      ex_a_waiting = Ret Broke s1 ∧
    clients s1 = clients ex_a_waiting ∖ {["a"]} ∧
    logs s1 = logs ex_a_waiting ++ [LogDisconnected "a"].
Proof.
  destruct (Read_error_tears_down_the_session NewDispatch "a"
              (JsonError "invalid character") [Ok ex_good_flag] ex_a_waiting
              (mkClient (mkChan [ex_msg; ex_good_flag] false) ∅ true)
              eq_refl eq_refl)
    as (s1 & logged & Hpump & Hclients & _ & _ & _ & _ & Hlogs & _ & Hnot);
    [set_solver | reflexivity | reflexivity | reflexivity |].
  exists s1. split_and!; [exact Hpump | exact Hclients |].
  rewrite Hlogs, Hnot; [done |]. intros (code & Hcode & _). discriminate.
Defined.

(** ** The readPump kept under [test/] *)

Lemma readPump_loop'_retries (d : Dispatch) (c : string) (code : Z) (n k : nat)
    (frames : list (result Message)) (s : Server) :
  (code = 1001 ∨ code = 1006)%Z →
  (n + k ≤ 16)%nat →
  readPump_loop' d c n (replicate k (Err (CloseError code)) ++ frames) s =
  readPump_loop' d c (n + k)%nat frames s.
Proof.
  intros Hcode. revert n. induction k as [| k IH]; intros n Hle.
  - by rewrite Nat.add_0_r.
  - cbn [replicate app readPump_loop'].
    destruct (decide _) as [_ | ?]; [| done].
    destruct (decide (15 < n)) as [? | _]; [lia |].
    rewrite IH by lia. f_equal. lia.
Qed.

(** X18.  In the copy of readPump under [test/], going-away and abnormal-closure
    closes are passed over sixteen times, without a log line or any other
    change; the seventeenth sends the deregistration request, and the deferred
    function then sends it a second time. *)
Theorem readPump'_gives_up_at_the_seventeenth_close (d : Dispatch) (c : string)
    (code : Z) (frames : list (result Message)) (s : Server) :
  (code = 1001 ∨ code = 1006)%Z →
  (∀ k : nat, (k ≤ 16)%nat →
     readPump_loop' d c 0 (replicate k (Err (CloseError code)) ++ frames) s =
     readPump_loop' d c k frames s) ∧
  readPump' d c (replicate 17 (Err (CloseError code)) ++ frames) s =
    (run_unregister d c ;;; run_unregister d c ;;;
     cl <- deref c ;; modify (set_heap <[c := close_conn cl]>) ;;; ret Broke) s.
Proof.
  intros Hcode. split.
  - intros k Hk. by rewrite readPump_loop'_retries.
  - unfold readPump'. unfold bind at 1.
    change (replicate 17 (Err (CloseError code)) ++ frames)
      with (replicate 16 (Err (CloseError code)) ++ (Err (CloseError code) :: frames)).
    rewrite readPump_loop'_retries by (done || lia).
    cbn [Nat.add readPump_loop'].
    destruct (decide _) as [_ | ?]; [| done].
    destruct (decide (15 < 16)) as [_ | ?]; [| lia].
    unfold readPump_deferred, bind, ret.
    destruct (run_unregister d c s) as [[] s1 | |]; [| done..].
    destruct (run_unregister d c s1) as [[] s2 | |]; [| done..].
    by destruct (deref c s2) as [cl s3 | |].
Qed.

Lemma readPump'_gives_up_at_the_seventeenth_close_witness :
  readPump' ex_bye "b" (replicate 17 (Err (CloseError 1001))) ex_two =
    (run_unregister ex_bye "b" ;;; run_unregister ex_bye "b" ;;;
     cl <- deref "b" ;; modify (set_heap <["b" := close_conn cl]>) ;;; ret Broke) ex_two.
Proof.
  destruct (readPump'_gives_up_at_the_seventeenth_close ex_bye "b" 1001 [] ex_two)
    as [_ Hlast]; [by left |].
  rewrite app_nil_r in Hlast. exact Hlast.
Defined.

(** ** Admission *)

(** X19.  The auth gate refuses a request exactly when the configuration carries
    an auth predicate and that predicate says no; then nothing else happens.
    With no configuration, or one without a predicate, no request is
    refused. *)
Theorem Auth_gate_refuses_only_on_the_configured_no (config : option ServerConfig)
    (d : Dispatch) (Upgrade : Upgrader → string → result unit) (r id : string)
    (s : Server) :
  handleWebSocket (NewGateway config) d Upgrade r id s = Ret Unauthorized s ↔
  ∃ cfg auth,
    config = Some cfg ∧ cfg_AuthMiddleware cfg = Some auth ∧ auth r = false.
Proof.
  assert (∀ g, authMiddleware g = Some (fun _ => true) →
            handleWebSocket g d Upgrade r id s ≠ Ret Unauthorized s) as Hopen.
  { intros g Hg. unfold handleWebSocket. rewrite Hg. simpl.
    destruct (Upgrade (upgrader g) r) as [[] | err].
    - intros Hrun. apply bind_Ret_inv in Hrun as ([] & s1 & _ & Hrun).
      apply bind_Ret_inv in Hrun as ([] & s2 & _ & Hrun). done.
    - unfold bind, modify, ret. intros [=]. }
  split.
  - intros Hrun. destruct config as [cfg |].
    + destruct (cfg_AuthMiddleware cfg) as [auth |] eqn:Hauth.
      * exists cfg, auth. split_and!; try done.
        unfold handleWebSocket, NewGateway in Hrun. rewrite Hauth in Hrun.
        cbn [authMiddleware] in Hrun. destruct (auth r); [| done]. exfalso.
        revert Hrun. cbn [negb].
        destruct (Upgrade _ r) as [[] | err].
        -- intros Hrun. apply bind_Ret_inv in Hrun as ([] & s1 & _ & Hrun).
           apply bind_Ret_inv in Hrun as ([] & s2 & _ & Hrun). done.
        -- unfold bind, modify, ret. intros [=].
      * exfalso. revert Hrun. apply Hopen. unfold NewGateway. rewrite Hauth.
        by destruct (CheckOrigin (cfg_Upgrader cfg)).
    + exfalso. revert Hrun. by apply Hopen.
  - intros (cfg & auth & -> & Hauth & Hno).
    unfold handleWebSocket, NewGateway. rewrite Hauth. cbn [authMiddleware].
    by rewrite Hno.
Qed.

(** X20.  A connection admitted with a connect handler that greets the session
    (registered with On): the session is in the registry, and the first thing
    its writePump hands to the connection is the greeting. *)
Theorem Connect_handler_greets_the_new_session (MI : Marshal) (UI : Unmarshal any)
    (config : option ServerConfig) (d0 : Dispatch)
    (Upgrade : Upgrader → string → result unit) (r id event : string) (data : any)
    (bytes : string) (payload : any) (more : list (option error)) (s : Server) :
  (∀ cfg auth, config = Some cfg → cfg_AuthMiddleware cfg = Some auth → auth r = true) →
  Upgrade (upgrader (NewGateway config)) r = Ok tt →
  json_Marshal (ABytes []) = Ok bytes →
  json_Unmarshal bytes = Ok payload →
  mu s = unlocked →
  let d := @On MI UI d0 "connect" (fun client _ => Emit client event data) in
  ∃ s',
    (handleWebSocket (NewGateway config) d Upgrade r id ;;;
     writePump id (None :: more)) s
      = Ret ([WriteJSON (response (mkMessage event data))], Receiving) s' ∧
    id ∈ clients s' ∧
    logs s' = logs s ++ [LogConnected id].
Proof.
  intros Hauth Hup Hm Hu Hmu d.
  assert (match authMiddleware (NewGateway config) with
          | Some auth => negb (auth r)
          | None => false
          end = false) as Hgate.
  { destruct config as [cfg |]; [| done]. unfold NewGateway.
    destruct (cfg_AuthMiddleware cfg) as [auth |] eqn:Ha.
    - cbn [authMiddleware]. by rewrite (Hauth cfg auth eq_refl Ha).
    - by destruct (CheckOrigin (cfg_Upgrader cfg)). }
  assert (handleWebSocket (NewGateway config) d Upgrade r id s =
            (fire d "connect" id ;;; ret Switched)
              (log_Printf (LogConnected id)
                 (set_clients (fun cs => cs ∪ {[id]})
                    (set_heap <[id := mkClient make_chan ∅ true]> s)))) as Hadmit.
  { unfold handleWebSocket. rewrite Hgate, Hup. unfold bind, new_client, modify.
    by rewrite run_register_spec. }
  unfold bind at 1. rewrite Hadmit.
  unfold fire, d, On. cbn [handlers]. rewrite lookup_insert_eq.
  unfold Handle. rewrite Hm, Hu. unfold bind at 1 2 3.
  erewrite Emit_open; [| simpl; apply lookup_insert_eq | done].
  destruct (decide (has_room _)) as [_ | Hfull];
    [| destruct Hfull; unfold has_room; simpl; unfold send_cap; lia].
  cbn [ret].
  eexists. split.
  - etrans; [apply (writePump_all_written id more _
                      (enqueued (mkMessage event data) (mkClient make_chan ∅ true)));
             simpl; apply lookup_insert_eq |].
    reflexivity.
  - simpl. split; [set_solver | done].
Qed.

Lemma Connect_handler_greets_the_new_session_witness :
  ∃ s',
    (handleWebSocket (NewGateway None)
       (On NewDispatch "connect" (fun client _ => Emit client "welcome" ANil))
       ex_Upgrade "/socket" "c1" ;;;
     writePump "c1" [None]) ex_two
      = Ret ([WriteJSON (response (mkMessage "welcome" ANil))], Receiving) s' ∧
    "c1" ∈ clients s'.
Proof.
  destruct (Connect_handler_greets_the_new_session ex_Marshal ex_Unmarshal_any None
              NewDispatch ex_Upgrade "/socket" "c1" "welcome" ANil two_quotes
              (AString EmptyString) [] ex_two)
    as (s' & Hrun & Hin & _); try reflexivity.
  - intros cfg auth Hcfg. discriminate.
  - exists s'. split; [exact Hrun | exact Hin].
Defined.

(** ** Registration *)

(** X21.  There is one entry per event name and the last registration wins,
    whichever of On and OnTyped made the earlier one; registering for one
    event leaves the entries of the others alone; and it does not matter
    whether a handler or a middleware predicate is registered first. *)
Theorem Registration_last_writer_wins (MI : Marshal) (UI : Unmarshal any)
    (T : Type) (UT : Unmarshal T) (d : Dispatch) (event other : string)
    (h : HandlerFunc any) (ht : HandlerFunc T) (mw : Middleware) :
  @On MI UI (@OnTyped MI T UT d event ht) event h = @On MI UI d event h ∧
  @OnTyped MI T UT (@On MI UI d event h) event ht = @OnTyped MI T UT d event ht ∧
  (other ≠ event →
     handlers (@On MI UI d event h) !! other = handlers d !! other ∧
     handlers (@OnTyped MI T UT d event ht) !! other = handlers d !! other) ∧
  Use (@On MI UI d event h) mw = @On MI UI (Use d mw) event h ∧
  Use (@OnTyped MI T UT d event ht) mw = @OnTyped MI T UT (Use d mw) event ht.
Proof.
  unfold On, OnTyped, Use. cbn [handlers middleware]. split_and!.
  - by rewrite insert_insert_eq.
  - by rewrite insert_insert_eq.
  - intros Hne. by rewrite !lookup_insert_ne.
  - reflexivity.
  - reflexivity.
Qed.

Lemma Registration_last_writer_wins_witness :
  handlers (On NewDispatch "ping" ex_kind) !! "flag" = handlers NewDispatch !! "flag".
Proof.
  destruct (Registration_last_writer_wins ex_Marshal ex_Unmarshal_any bool
              ex_Unmarshal_bool NewDispatch "ping" "flag" ex_kind ex_reply ex_mw_log)
    as (_ & _ & Hother & _).
  destruct Hother as [Hon _]; [done | exact Hon].
Defined.

(** ** A shed session and the room index *)

(** X22.  A session shed by Emit is never taken out of its rooms: when its
    deregistration request reaches the hub, the hub no longer finds it in the
    registry and skips the cleanup, so the room index keeps the member. *)
Theorem Shed_session_stays_in_its_rooms (d : Dispatch) (k room event : string)
    (data : any) (s : Server) (cl : Client) :
  handlers d !! "disconnect" = None →
  mu s = unlocked →
  is_member s k room →
  heap s !! k = Some cl → closed (send cl) = false →
  ¬ length (buf (send cl)) < send_cap →
  ∃ s',
    (Emit k event data ;;; run_unregister d k) s = Ret tt s' ∧
    (k ∉ clients s') ∧ is_member s' k room ∧ rooms s' = rooms s.
Proof.
  intros Hnone Hmu Hmem Hc Hopen Hfull. unfold bind.
  rewrite (Emit_open k event data s cl Hc Hopen).
  destruct (decide (has_room cl)) as [Hroom | _]; [done |].
  rewrite run_unregister_absent; [| simpl; set_solver | done].
  unfold fire. rewrite Hnone. eexists. split; [reflexivity |].
  simpl. split_and!; [set_solver | exact Hmem | done].
Qed.

Lemma Shed_session_stays_in_its_rooms_witness :
  ∃ s',
    (Emit "b" "ping" (ANumber 1) ;;; run_unregister NewDispatch "b") ex_lobby_b_full
      = Ret tt s' ∧
    is_member s' "b" "lobby".
Proof.
  destruct (Shed_session_stays_in_its_rooms NewDispatch "b" "lobby" "ping" (ANumber 1)
              ex_lobby_b_full
              (mkClient (mkChan (replicate 256 ex_msg) false) {["lobby"]} true))
    as (s' & Hrun & _ & Hmem & _).
  - reflexivity.
  - reflexivity.
  - exists {["a"; "b"]}. split; [apply lookup_singleton_eq | set_solver].
  - reflexivity.
  - reflexivity.
  - cbn [buf send]. rewrite length_replicate. unfold send_cap. lia.
  - exists s'. split; [exact Hrun | exact Hmem].
Defined.
